(** * A shallow embedding of [csp.py]: the CSP class, AC-3 and backtracking

    The Python class [CSP] keeps its variables, domains and constraints in
    mutable dictionaries and lists.  Every method is embedded as a function
    in a small state-and-exception monad over a record holding the fields of
    [self].  Lists that the source mutates while it iterates over them are
    modelled with the index-based protocol of Python's list iterator.  The
    source is Python 2: [filter] returns a list and [cmp] compares tuples. *)

From Stdlib Require Import String Ascii List Bool Arith Lia.
Import ListNotations.
Open Scope string_scope.
Open Scope list_scope.
Open Scope nat_scope.

(** ** Python values used by the solver *)

(** Variable names and domain values are Python strings, as in the Sudoku
    and map-colouring builders (and as [debug_print] requires, which
    concatenates a value with [" "]). *)
Definition name := string.
Definition value := string.

(** ** Dictionaries

    A [dict] is an association list without duplicate keys.  Iteration
    visits the keys in insertion order; assigning to an existing key keeps
    its position.  (Python 2 leaves the iteration order unspecified; the
    general theorems below are stated on membership and do not depend on
    it.) *)
Module Dict.

Definition t (V : Type) := list (name * V).

Fixpoint get {V : Type} (k : name) (d : t V) : option V :=
  match d with
  | [] => None
  | (k', v) :: r => if String.eqb k k' then Some v else get k r
  end.

Fixpoint set {V : Type} (k : name) (v : V) (d : t V) : t V :=
  match d with
  | [] => [(k, v)]
  | (k', v') :: r =>
      if String.eqb k k' then (k, v) :: r else (k', v') :: set k v r
  end.

Definition keys {V : Type} (d : t V) : list name := map fst d.

Definition mem {V : Type} (k : name) (d : t V) : bool :=
  match get k d with Some _ => true | None => false end.

End Dict.

(** ** The object state *)

Definition pair_list := list (value * value).

(** An assignment maps each variable to its list of still legal values. *)
Definition Assignment := Dict.t (list value).

(** The fields of [self] set up in [__init__].  [random_draws] is not a
    field of the class: it counts the draws made so far from the generator
    of the [random] module, whose state the methods thread as well. *)
Record CSP := mkCSP {
  variables : list name;
  domains : Dict.t (list value);
  constraints : Dict.t (Dict.t pair_list);
  backtrack_called : nat;
  backtrack_failed : nat;
  random_draws : nat
}.

(** [CSP()] *)
Definition init : CSP := mkCSP [] [] [] 0 0 0.

Definition with_domains (d : Dict.t (list value)) (s : CSP) : CSP :=
  mkCSP (variables s) d (constraints s)
        (backtrack_called s) (backtrack_failed s) (random_draws s).

Definition with_constraints (c : Dict.t (Dict.t pair_list)) (s : CSP) : CSP :=
  mkCSP (variables s) (domains s) c
        (backtrack_called s) (backtrack_failed s) (random_draws s).

(** ** Exceptions and the method monad *)

Inductive exn := KeyError | TypeError | AttributeError | IndexError.

(** A call returns a value, raises, or (for the fuelled loops only) runs
    out of fuel.  The state reached so far is kept in the first two. *)
Inductive outcome (A : Type) :=
| Return (a : A) (s : CSP)
| Raise (e : exn) (s : CSP)
| OutOfFuel.
Arguments Return {A} a s.
Arguments Raise {A} e s.
Arguments OutOfFuel {A}.

Definition M (A : Type) := CSP -> outcome A.

Definition ret {A : Type} (a : A) : M A := fun s => Return a s.

Definition bind {A B : Type} (m : M A) (k : A -> M B) : M B :=
  fun s =>
    match m s with
    | Return a s' => k a s'
    | Raise e s' => Raise e s'
    | OutOfFuel => OutOfFuel
    end.

Definition raise {A : Type} (e : exn) : M A := fun s => Raise e s.

Declare Scope csp_scope.
Delimit Scope csp_scope with csp.
Notation "x <- m ;; k" := (bind m (fun x => k))
  (at level 61, m at next level, right associativity) : csp_scope.
Notation "m ;;; k" := (bind m (fun _ => k))
  (at level 61, right associativity) : csp_scope.
Open Scope csp_scope.

(** [d[k]] raises [KeyError] on a missing key; [d.get(k)] gives [None]. *)
Definition subscript {V : Type} (k : name) (d : Dict.t V) : M V :=
  match Dict.get k d with
  | Some v => ret v
  | None => raise KeyError
  end.

(** ** Building the graph *)

(** [add_variable]: no check is made, a second registration of [name]
    overwrites its domain and resets its outgoing constraints. *)
Definition add_variable (n : name) (domain : list value) : M unit :=
  fun s =>
    Return tt (mkCSP (variables s ++ [n])
                     (Dict.set n domain (domains s))
                     (Dict.set n [] (constraints s))
                     (backtrack_called s) (backtrack_failed s)
                     (random_draws s)).

(** [itertools.product(a, b)], first component from [a]. *)
Definition get_all_possible_pairs {A : Type} (a b : list A) : list (A * A) :=
  list_prod a b.

(** [[(i, j) for i in self.constraints for j in self.constraints[i]]] *)
Definition get_all_arcs (s : CSP) : list (name * name) :=
  flat_map (fun ic => map (fun jc => (fst ic, fst jc)) (snd ic))
           (constraints s).

(** [[(i, var) for i in self.constraints[var]]] *)
Definition get_all_neighboring_arcs (var : name) : M (list (name * name)) :=
  fun s =>
    (ci <- subscript var (constraints s) ;;
     ret (map (fun i => (i, var)) (Dict.keys ci))) s.

(** [add_constraint_one_way]: the product is taken only when [j] has no
    entry under [i] yet; the stored list is then filtered in every call. *)
Definition add_constraint_one_way (i j : name)
    (filter_function : value -> value -> bool) : M unit :=
  fun s =>
    (ci <- subscript i (constraints s) ;;
     cij <- (match Dict.get j ci with
             | Some l => ret l
             | None =>
                 di <- subscript i (domains s) ;;
                 dj <- subscript j (domains s) ;;
                 ret (get_all_possible_pairs di dj)
             end) ;;
     let kept := filter (fun vp => filter_function (fst vp) (snd vp)) cij in
     fun s' =>
       Return tt (with_constraints
                    (Dict.set i (Dict.set j kept ci) (constraints s')) s')) s.

Fixpoint for_each {A : Type} (body : A -> M unit) (l : list A) : M unit :=
  match l with
  | [] => ret tt
  | x :: r => body x ;;; for_each body r
  end.

(** [add_all_different_constraint] *)
Definition add_all_different_constraint (vars : list name) : M unit :=
  for_each
    (fun ij =>
       if String.eqb (fst ij) (snd ij) then ret tt
       else add_constraint_one_way (fst ij) (snd ij)
              (fun x y => negb (String.eqb x y)))
    (get_all_possible_pairs vars vars).

(** ** AC-3 *)

Definition pair_eqb (p q : value * value) : bool :=
  String.eqb (fst p) (fst q) && String.eqb (snd p) (snd q).

Definition arc_eqb (p q : name * name) : bool :=
  String.eqb (fst p) (fst q) && String.eqb (snd p) (snd q).

(** [(x, y) in l] on a list of tuples. *)
Definition pair_in (p : value * value) (l : pair_list) : bool :=
  existsb (pair_eqb p) l.

(** The inner loop of [revise]: is there a [y] in [self.domains.get(j)]
    with [(x, y)] in [self.constraints.get(i).get(j)]?  The constraint is
    looked up inside the loop body, so a missing entry only raises when
    the domain of [j] is not empty. *)
Definition found_support (i j : name) (x : value) : M bool :=
  fun s =>
    match Dict.get j (domains s) with
    | None => Raise TypeError s
    | Some [] => Return false s
    | Some (y :: dj) =>
        match Dict.get i (constraints s) with
        | None => Raise AttributeError s
        | Some ci =>
            match Dict.get j ci with
            | None => Raise TypeError s
            | Some cij =>
                Return (existsb (fun y' => pair_in (x, y') cij) (y :: dj)) s
            end
        end
    end.

(** [for key, d in enumerate(l): if d == x: del l[key]] -- the iterator
    moves on by one position after a deletion, so the element that slid
    into the freed position is not examined. *)
Fixpoint delete_while_enumerating (x : value) (l : list value) : list value :=
  match l with
  | [] => []
  | d :: r =>
      if String.eqb d x then
        match r with
        | [] => []
        | d' :: r' => d' :: delete_while_enumerating x r'
        end
      else d :: delete_while_enumerating x r
  end.

(** The outer loop of [revise], [for x in self.domains.get(i)], at
    position [idx] of the list iterator.  The list is the one stored in
    the state: deletions made by the body are seen by the iterator. *)
Fixpoint revise_loop (fuel idx : nat) (i j : name) (revised : bool) : M bool :=
  fun s =>
    match Dict.get i (domains s) with
    | None => Raise TypeError s
    | Some di =>
        match nth_error di idx with
        | None => Return revised s
        | Some x =>
            match fuel with
            | 0 => OutOfFuel
            | S fuel' =>
                (found <- found_support i j x ;;
                 if found then revise_loop fuel' (S idx) i j revised
                 else
                   (fun s' =>
                      Return tt
                        (with_domains
                           (Dict.set i (delete_while_enumerating x di)
                                     (domains s')) s')) ;;;
                   revise_loop fuel' (S idx) i j true) s
            end
        end
    end.

(** [revise]: the [assignment] argument is never read or written; the
    values are taken from, and deleted from, [self.domains]. *)
Definition revise (assignment : Assignment) (i j : name) : M bool :=
  fun s =>
    match Dict.get i (domains s) with
    | None => Raise TypeError s
    | Some di => revise_loop (length di) 0 i j false s
    end.

(** The [while] loop of [inference]. *)
Fixpoint inference_loop (fuel : nat) (assignment : Assignment)
    (queue : list (name * name)) : M bool :=
  match queue with
  | [] => ret true
  | (i, j) :: queue' =>
      match fuel with
      | 0 => fun _ => OutOfFuel
      | S fuel' =>
          revised <- revise assignment i j ;;
          if revised then
            fun s =>
              match Dict.get i (domains s) with
              | None => Raise TypeError s
              | Some [] => Return false s
              | Some (_ :: _) =>
                  (arcs <- get_all_neighboring_arcs i ;;
                   inference_loop fuel' assignment
                     (queue' ++
                      filter (fun k => negb (arc_eqb k (i, j))) arcs)) s
              end
          else inference_loop fuel' assignment queue'
      end
  end.

Definition total_size (d : Dict.t (list value)) : nat :=
  fold_right (fun kv n => length (snd kv) + n) 0 d.

(** A number of iterations the [while] loop cannot exceed: every revision
    that reports a change shortens a domain and appends at most one arc per
    registered constraint (see [inference_loop_post]). *)
Definition inference_fuel (queue : list (name * name)) (s : CSP) : nat :=
  length queue + total_size (domains s) * S (length (get_all_arcs s)).

(** [inference] *)
Definition inference (assignment : Assignment) (queue : list (name * name))
  : M bool :=
  fun s => inference_loop (inference_fuel queue s) assignment queue s.

(** ** Backtracking search *)

(** What [backtrack] returns: the assignment dictionary or [False]. *)
Inductive result :=
| PyFalse
| PyDict (a : Assignment).

(** [str(n)] for the one-digit numbers the source formats, [0 <= n <= 9]. *)
Definition str (n : nat) : string :=
  String (ascii_of_nat (48 + n)) EmptyString.

(** ['%d-%d' % (row, col)], also [str(row) + "-" + str(col)]. *)
Definition cell (row col : nat) : name :=
  String.append (str row) (String.append "-" (str col)).

(** The keys read by [debug_print], for [i] and [j] in [range(9)]. *)
Definition grid_keys : list name :=
  flat_map (fun i => map (fun j => cell i j) (seq 0 9)) (seq 0 9).

(** [debug_print]: its output is not modelled, its [KeyError] on an
    assignment that lacks a cell of the 9x9 grid is. *)
Definition debug_print (solution : Assignment) : M unit :=
  if forallb (fun k => Dict.mem k solution) grid_keys then ret tt
  else raise KeyError.

(** [len(assignment[a]) > 1] for a key [a] of [assignment]. *)
Definition undecided (assignment : Assignment) (a : name) : bool :=
  match Dict.get a assignment with
  | Some l => 1 <? length l
  | None => false
  end.

(** The completeness test at the head of [backtrack]. *)
Definition finished (assignment : Assignment) : bool :=
  forallb (fun a => negb (undecided assignment a)) (Dict.keys assignment).

(** The list built by [select_unassigned_variable]. *)
Definition unassigned (assignment : Assignment) : list name :=
  filter (undecided assignment) (Dict.keys assignment).

Section Search.

(** The values drawn from the random generator: the [n]-th draw selects
    position [rnd n mod len] of the sequence passed to [random.choice]. *)
Variable rnd : nat -> nat.

Definition random_choice (seq : list name) : M name :=
  fun s =>
    let s' := mkCSP (variables s) (domains s) (constraints s)
                    (backtrack_called s) (backtrack_failed s)
                    (S (random_draws s)) in
    match nth_error seq (rnd (random_draws s) mod length seq) with
    | Some v => Return v s'
    | None => Raise IndexError s'
    end.

(** [select_unassigned_variable] *)
Definition select_unassigned_variable (assignment : Assignment) : M name :=
  random_choice (unassigned assignment).

Definition incr_called : M unit :=
  fun s =>
    Return tt (mkCSP (variables s) (domains s) (constraints s)
                     (S (backtrack_called s)) (backtrack_failed s)
                     (random_draws s)).

Definition incr_failed : M unit :=
  fun s =>
    Return tt (mkCSP (variables s) (domains s) (constraints s)
                     (backtrack_called s) (S (backtrack_failed s))
                     (random_draws s)).

(** [for idx, a in enumerate(l): if a is value: del l[idx]; break].  The
    values compared are the strings of one domain list, handed on by
    [copy.deepcopy] as the same objects, so identity is equality. *)
Fixpoint delete_first (v : value) (l : list value) : list value :=
  match l with
  | [] => []
  | a :: r => if String.eqb a v then r else a :: delete_first v r
  end.

(** The loop [for value in self.domains[var]] of [backtrack], at position
    [idx] of the iterator over the stored list; [rec] is the recursive
    call.  Leaving the loop falls through to the failure exit. *)
Fixpoint for_values (rec : Assignment -> M result) (fuel idx : nat)
    (var : name) (assignment : Assignment) : M result :=
  fun s =>
    match Dict.get var (domains s) with
    | None => Raise KeyError s
    | Some dv =>
        match nth_error dv idx with
        | None => (incr_failed ;;; ret PyFalse) s
        | Some v =>
            match fuel with
            | 0 => OutOfFuel
            | S fuel' =>
                let new_assignment := Dict.set var [v] assignment in
                let next :=
                  avar <- subscript var assignment ;;
                  for_values rec fuel' (S idx) var
                    (Dict.set var (delete_first v avar) assignment) in
                (ok <- inference new_assignment (get_all_arcs s) ;;
                 if ok then
                   r <- rec new_assignment ;;
                   match r with
                   | PyDict a => ret (PyDict a)
                   | PyFalse => next
                   end
                 else next) s
            end
        end
    end.

(** [backtrack]; [fuel] bounds the depth of the recursion. *)
Fixpoint backtrack (fuel : nat) (assignment : Assignment) : M result :=
  match fuel with
  | 0 => fun _ => OutOfFuel
  | S fuel' =>
      incr_called ;;;
      if finished assignment then ret (PyDict assignment)
      else
        debug_print assignment ;;;
        var <- select_unassigned_variable assignment ;;
        fun s =>
          (dv <- subscript var (domains s) ;;
           for_values (backtrack fuel') (length dv) 0 var assignment) s
  end.

(** Every recursive call decides one more variable, so the depth never
    exceeds the number of undecided variables (see [backtrack_post]). *)
Definition backtrack_fuel (assignment : Assignment) : nat :=
  S (length (unassigned assignment)).

(** [backtracking_search]: the result of the first [inference] is
    dropped. *)
Definition backtracking_search : M result :=
  fun s =>
    let assignment := domains s in
    (inference assignment (get_all_arcs s) ;;;
     backtrack (backtrack_fuel assignment) assignment) s.

End Search.

(** ** Notions used by the statements *)

(** [j in self.constraints[i]]: the arc [i -> j] has been added. *)
Definition registered (s : CSP) (i j : name) : bool :=
  match Dict.get i (constraints s) with
  | Some ci => Dict.mem j ci
  | None => false
  end.

(** [self.constraints.get(i).get(j)] when both lookups succeed. *)
Definition stored (s : CSP) (i j : name) : option pair_list :=
  match Dict.get i (constraints s) with
  | Some ci => Dict.get j ci
  | None => None
  end.

(** The arc [i -> j] holds in an assignment that decides both ends. *)
Definition arc_satisfied (s : CSP) (a : Assignment) (i j : name) : bool :=
  match Dict.get i a, Dict.get j a, stored s i j with
  | Some [x], Some [y], Some cij => pair_in (x, y) cij
  | _, _, _ => false
  end.

(** Every variable of the assignment has exactly one value left. *)
Definition all_singletons (a : Assignment) : bool :=
  forallb (fun kv => length (snd kv) =? 1) a.

(** The state a builder script leaves behind, started from [CSP()]. *)
Definition built (script : M unit) : CSP :=
  match script init with
  | Return _ s => s
  | Raise _ s => s
  | OutOfFuel => init
  end.

(** The state after a call, whatever its outcome. *)
Definition state_after {A : Type} (o : outcome A) (s0 : CSP) : CSP :=
  match o with
  | Return _ s => s
  | Raise _ s => s
  | OutOfFuel => s0
  end.

(** ** Specifications of calls *)

(** [post o Q]: the call ended, without running out of fuel, and if it
    returned normally then [Q] holds of its value and final state. *)
Definition post {A : Type} (o : outcome A) (Q : A -> CSP -> Prop) : Prop :=
  match o with
  | Return a s => Q a s
  | Raise _ _ => True
  | OutOfFuel => False
  end.

(** Same keys in the same order, and no list got longer. *)
Definition pointwise_shorter (d d' : Dict.t (list value)) : Prop :=
  Forall2 (fun p q => fst q = fst p /\ length (snd q) <= length (snd p)) d d'.

(** What AC-3 and the search may do to [self]: the constraints stay, the
    stored domains can only lose values. *)
Definition shrinks (s s' : CSP) : Prop :=
  constraints s' = constraints s /\
  pointwise_shorter (domains s) (domains s').

(** [a'] has the keys of [a], each with its list in [a] or with a single
    value. *)
Definition decides (a a' : Assignment) : Prop :=
  Dict.keys a' = Dict.keys a /\
  forall k, Dict.get k a' = Dict.get k a \/ exists v, Dict.get k a' = Some [v].

(** What [backtrack] may return when called on [a]. *)
Definition solved_from (a : Assignment) (r : result) : Prop :=
  match r with
  | PyFalse => True
  | PyDict a' => finished a' = true /\ decides a a'
  end.

(** The call raised an exception. *)
Definition raises {A : Type} (o : outcome A) : bool :=
  match o with
  | Raise _ _ => true
  | _ => false
  end.

(** Both ends of the arc have a domain and a constraint is stored for it. *)
Definition arc_ok (s : CSP) (i j : name) : bool :=
  Dict.mem i (domains s) && Dict.mem j (domains s) && registered s i j.

(** The builder contract: every constraint was added in both directions,
    between variables that were added. *)
Definition well_formed (s : CSP) : bool :=
  forallb (fun ic =>
             forallb (fun jc => arc_ok s (fst ic) (fst jc) &&
                                arc_ok s (fst jc) (fst ic))
                     (snd ic))
          (constraints s).

(** The variables include the 81 cells [debug_print] reads. *)
Definition on_grid (s : CSP) : bool :=
  forallb (fun k => Dict.mem k (domains s)) grid_keys.

(** What [well_formed] gives for the arcs AC-3 visits. *)
Definition arcs_ok (s : CSP) : Prop :=
  (forall i j, In (i, j) (get_all_arcs s) -> arc_ok s i j = true) /\
  (forall i ci k, Dict.get i (constraints s) = Some ci ->
                  In k (Dict.keys ci) -> arc_ok s k i = true).

(** The invariant of [backtrack] on graphs that respect the contract. *)
Definition search_inv (a : Assignment) (s : CSP) : Prop :=
  arcs_ok s /\
  Dict.keys a = Dict.keys (domains s) /\
  (forall k, In k grid_keys -> In k (Dict.keys a)).

(** The specification a recursive call of [backtrack] is assumed to meet
    on assignments with fewer than [k] undecided variables. *)
Definition rec_spec (rec : Assignment -> M result) (k : nat) : Prop :=
  forall a s,
    length (unassigned a) < k ->
    post (rec a s) (fun r s' => shrinks s s' /\ solved_from a r).

(** ** The Sudoku builder *)

(** One cell of [create_sudoku_csp]: ['0'] stands for an empty cell. *)
Definition add_cell (board : list string) (row col : nat) : M unit :=
  match nth_error board row with
  | None => raise IndexError
  | Some line =>
      match String.get col line with
      | None => raise IndexError
      | Some c =>
          if Ascii.eqb c "0"%char
          then add_variable (cell row col) (map str (seq 1 9))
          else add_variable (cell row col) [String c EmptyString]
      end
  end.

(** [create_sudoku_csp], on the stripped lines of the board file. *)
Definition create_sudoku_csp (board : list string) : M unit :=
  for_each (fun row =>
              for_each (fun col => add_cell board row col) (seq 0 9))
           (seq 0 9) ;;;
  for_each (fun row =>
              add_all_different_constraint
                (map (fun col => cell row col) (seq 0 9)))
           (seq 0 9) ;;;
  for_each (fun col =>
              add_all_different_constraint
                (map (fun row => cell row col) (seq 0 9)))
           (seq 0 9) ;;;
  for_each (fun box_row =>
              for_each (fun box_col =>
                          add_all_different_constraint
                            (flat_map
                               (fun row =>
                                  map (fun col => cell row col)
                                      (seq (box_col * 3) 3))
                               (seq (box_row * 3) 3)))
                       (seq 0 3))
           (seq 0 3).

(** ** Example graphs *)

Definition differ (x y : value) : bool := negb (String.eqb x y).

(** The single arc [a -> b]. *)
Definition one_way_graph : CSP :=
  built (add_variable "a" ["1"; "2"] ;;;
         add_variable "b" ["1"; "2"] ;;;
         add_constraint_one_way "a" "b" differ).

(** Both arcs between [a] and [b]. *)
Definition two_way_graph : CSP :=
  built (add_variable "a" ["1"; "2"] ;;;
         add_variable "b" ["1"; "2"] ;;;
         add_constraint_one_way "a" "b" differ ;;;
         add_constraint_one_way "b" "a" differ).

(** [a -> b] added twice, first with inequality, then with equality. *)
Definition added_twice_graph : CSP :=
  built (add_variable "a" ["1"; "2"] ;;;
         add_variable "b" ["1"; "2"] ;;;
         add_constraint_one_way "a" "b" differ ;;;
         add_constraint_one_way "a" "b" String.eqb).

(** Two variables that share the one-value domain [1] and must differ:
    the smallest pigeonhole instance, which has no solution. *)
Definition pigeonhole_graph : CSP :=
  built (add_variable "a" ["1"] ;;;
         add_variable "b" ["1"] ;;;
         add_all_different_constraint ["a"; "b"]).

(** [a] must be [1], written as a constraint with [b] in both directions. *)
Definition must_be_one_graph : CSP :=
  built (add_variable "a" ["3"; "4"; "1"] ;;;
         add_variable "b" ["2"] ;;;
         add_constraint_one_way "a" "b" (fun x _ => String.eqb x "1") ;;;
         add_constraint_one_way "b" "a" (fun _ x => String.eqb x "1")).

(** No value of [a] is allowed with [b], every value of [b] is allowed
    with [a]. *)
Definition lopsided_graph : CSP :=
  built (add_variable "a" ["1"; "2"; "3"] ;;;
         add_variable "b" ["5"] ;;;
         add_constraint_one_way "a" "b" (fun _ _ => false) ;;;
         add_constraint_one_way "b" "a" (fun _ _ => true)).

(** A variable registered with an empty domain next to a decided one. *)
Definition empty_domain_graph : CSP :=
  built (add_variable "a" [] ;;; add_variable "b" ["1"]).

(** The 81 cells of the grid, all given as [1] except the first, which
    may be [1] or [2]; two pairs of equal givens are required to differ. *)
Definition clashing_grid : CSP :=
  built (for_each
           (fun k => add_variable k (if String.eqb k "0-0" then ["1"; "2"]
                                     else ["1"]))
           grid_keys ;;;
         add_all_different_constraint ["0-1"; "0-2"] ;;;
         add_all_different_constraint ["0-3"; "0-4"]).

(** A completed Sudoku grid with four cells emptied, in rows 3 and 4 and
    columns 5 and 8, where the grid had [1 3] over [3 1]. *)
Definition rectangle_board : list string :=
  ["534678912";
   "672195348";
   "198342567";
   "859760420";
   "426850790";
   "713924856";
   "961537284";
   "287419635";
   "345286179"].

Definition rectangle_sudoku : CSP :=
  Eval vm_compute in built (create_sudoku_csp rectangle_board).

(** The queue [inference] is started with: all arcs. *)
Definition propagate_all (s : CSP) : outcome bool :=
  inference (domains s) (get_all_arcs s) s.

(** ** Notions used by the further properties *)

(** The lookups of [add_constraint_one_way] succeed: [i] has an entry in
    [self.constraints] and either [j] is a key of it or both have a
    domain. *)
Definition can_add (s : CSP) (i j : name) : bool :=
  match Dict.get i (constraints s) with
  | None => false
  | Some ci =>
      Dict.mem j ci || (Dict.mem i (domains s) && Dict.mem j (domains s))
  end.

(** The stored domain of a variable, empty when it has none. *)
Definition domain_of (s : CSP) (k : name) : list value :=
  match Dict.get k (domains s) with
  | Some d => d
  | None => []
  end.

(** The list [add_constraint_one_way] filters: the stored one, or the
    product of the two domains when none is stored yet. *)
Definition base_pairs (s : CSP) (i j : name) : pair_list :=
  match stored s i j with
  | Some l => l
  | None => get_all_possible_pairs (domain_of s i) (domain_of s j)
  end.

(** A two-argument predicate applied to a value pair, as the [lambda]
    passed to [filter] does. *)
Definition keep (f : value -> value -> bool) (vp : value * value) : bool :=
  f (fst vp) (snd vp).

(** The variable was added: it has a domain and a constraint entry. *)
Definition is_variable (s : CSP) (v : name) : bool :=
  Dict.mem v (constraints s) && Dict.mem v (domains s).

(** The pair [(i, j)] with [i <> j] occurs in the list: the test made by
    the loop of [add_all_different_constraint]. *)
Definition touched (ps : list (name * name)) (i j : name) : bool :=
  existsb (fun p => arc_eqb p (i, j) && negb (String.eqb (fst p) (snd p))) ps.

(** The pairs of different values. *)
Definition differing : value * value -> bool := keep differ.

(** Some value of the stored domain of [j] is allowed with [x] by the
    relation stored for [i -> j]: the test of the inner loop of
    [revise]. *)
Definition has_support (s : CSP) (i j : name) (x : value) : bool :=
  match Dict.get j (domains s), stored s i j with
  | Some dj, Some cij => existsb (fun y => pair_in (x, y) cij) dj
  | _, _ => false
  end.

(** Every value of the stored domain of [i] has a partner in that of
    [j]. *)
Definition arc_consistent (s : CSP) (i j : name) : bool :=
  match Dict.get i (domains s) with
  | Some di => forallb (has_support s i j) di
  | None => false
  end.

(** The fields AC-3 has no business with are the same. *)
Definition same_counters (s s' : CSP) : Prop :=
  variables s' = variables s /\
  backtrack_called s' = backtrack_called s /\
  backtrack_failed s' = backtrack_failed s /\
  random_draws s' = random_draws s.

(** Same constraints, counters and keys, and every stored domain holds
    only values it held before. *)
Definition prunes (s s' : CSP) : Prop :=
  constraints s' = constraints s /\
  same_counters s s' /\
  Forall2 (fun p q => fst q = fst p /\ incl (snd q) (snd p))
          (domains s) (domains s').

(** [create_map_coloring_csp]; the entries of [edges] are taken in the
    order they are written in. *)
Definition create_map_coloring_csp : M unit :=
  let states := ["WA"; "NT"; "Q"; "NSW"; "V"; "SA"; "T"] in
  let edges := [("SA", ["WA"; "NT"; "Q"; "NSW"; "V"]);
                ("NT", ["WA"; "Q"]);
                ("NSW", ["Q"; "V"])] in
  let colors := ["red"; "green"; "blue"] in
  for_each (fun state => add_variable state colors) states ;;;
  for_each
    (fun edge =>
       for_each
         (fun other_state =>
            add_constraint_one_way (fst edge) other_state
              (fun i j => negb (String.eqb i j)) ;;;
            add_constraint_one_way other_state (fst edge)
              (fun i j => negb (String.eqb i j)))
         (snd edge))
    edges.

Definition map_coloring : CSP := built create_map_coloring_csp.

(** What the search may change in [self]: never the constraints or the
    variable list, and no stored domain gains a value. *)
Definition search_frame (s s' : CSP) : Prop :=
  constraints s' = constraints s /\
  variables s' = variables s /\
  Dict.keys (domains s') = Dict.keys (domains s) /\
  forall k, incl (domain_of s' k) (domain_of s k).

(** The counters around one call of [backtrack] that returned [r]:
    [backtrack_called] went up, by as much as [backtrack_failed] when the
    call returned [False] and by more when it returned an assignment, and
    at most one draw was made per call. *)
Definition counts (r : result) (s s' : CSP) : Prop :=
  backtrack_called s < backtrack_called s' /\
  backtrack_failed s <= backtrack_failed s' /\
  random_draws s <= random_draws s' /\
  random_draws s' + backtrack_called s
  <= backtrack_called s' + random_draws s /\
  match r with
  | PyFalse =>
      backtrack_failed s' + backtrack_called s
      = backtrack_called s' + backtrack_failed s
  | PyDict _ =>
      backtrack_failed s' + backtrack_called s
      < backtrack_called s' + backtrack_failed s
  end.

(** The same around the loop over the values, whose failure exit adds
    one to [backtrack_failed]. *)
Definition loop_counts (r : result) (s s' : CSP) : Prop :=
  backtrack_called s <= backtrack_called s' /\
  backtrack_failed s <= backtrack_failed s' /\
  random_draws s <= random_draws s' /\
  random_draws s' + backtrack_called s
  <= backtrack_called s' + random_draws s /\
  match r with
  | PyFalse =>
      backtrack_failed s' + backtrack_called s
      = backtrack_called s' + backtrack_failed s + 1
  | PyDict _ =>
      backtrack_failed s' + backtrack_called s
      < backtrack_called s' + backtrack_failed s
  end.

(** Every variable of a returned assignment has the list it had in [a]
    or a single value of its stored domain. *)
Definition chosen (a : Assignment) (s : CSP) (r : result) : Prop :=
  match r with
  | PyFalse => True
  | PyDict a' =>
      forall k, Dict.get k a' = Dict.get k a \/
                exists v, Dict.get k a' = Some [v] /\ In v (domain_of s k)
  end.

(** The 81 cells, all given as [1] except the first, which may be [1] or
    [2], and no constraint. *)
Definition free_grid : CSP :=
  built (for_each
           (fun k => add_variable k (if String.eqb k "0-0" then ["1"; "2"]
                                     else ["1"]))
           grid_keys).

(** ** Notions used for the Sudoku builder *)

(** The board has the nine lines of at least nine characters that
    [create_sudoku_csp] indexes. *)
Definition board_ok (board : list string) : bool :=
  forallb (fun row =>
             match nth_error board row with
             | Some line => 9 <=? String.length line
             | None => false
             end)
          (seq 0 9).

(** The domain [create_sudoku_csp] gives to a cell: [1 .. 9] for ['0'],
    the character itself otherwise. *)
Definition cell_domain (board : list string) (row col : nat) : list value :=
  match nth_error board row with
  | Some line =>
      match String.get col line with
      | Some c => if Ascii.eqb c "0"%char then map str (seq 1 9)
                  else [String c EmptyString]
      | None => []
      end
  | None => []
  end.

(** Two different cells in one row, one column or one 3x3 box. *)
Definition peer (r c r' c' : nat) : bool :=
  negb ((r =? r') && (c =? c')) &&
  ((r =? r') || (c =? c') || ((r / 3 =? r' / 3) && (c / 3 =? c' / 3))).

(** The 81 pairs of a row and a column, row by row. *)
Definition grid_cells : list (nat * nat) := list_prod (seq 0 9) (seq 0 9).

(** A completed grid, used as the reference for the shape of the graph. *)
Definition completed_board : list string :=
  ["534678912";
   "672195348";
   "198342567";
   "859761423";
   "426853791";
   "713924856";
   "961537284";
   "287419635";
   "345286179"].

Definition completed_sudoku : CSP :=
  Eval vm_compute in built (create_sudoku_csp completed_board).

(** The keys of [self.constraints] with, for each, the keys of its
    entry. *)
Definition arcs_shape (c : Dict.t (Dict.t pair_list))
  : list (name * list name) :=
  map (fun ic => (fst ic, Dict.keys (snd ic))) c.

(** What of an object does not depend on the values of the domains. *)
Definition shape (s : CSP) : list name * list name * list (name * list name) :=
  (variables s, Dict.keys (domains s), arcs_shape (constraints s)).

(** Two scripts that do the same to the shape of the object. *)
Definition sim (m1 m2 : M unit) : Prop :=
  forall s1 s2,
    shape s1 = shape s2 ->
    match m1 s1, m2 s2 with
    | Return _ s1', Return _ s2' => shape s1' = shape s2'
    | Raise e1 _, Raise e2 _ => e1 = e2
    | OutOfFuel, OutOfFuel => True
    | _, _ => False
    end.

(** Every stored relation is the pairs of different values of the two
    domains. *)
Definition all_differ (s : CSP) : Prop :=
  forall i j,
    stored s i j = None \/
    stored s i j
    = Some (filter differing
                   (get_all_possible_pairs (domain_of s i) (domain_of s j))).

(** The three groups of [add_all_different_constraint] calls made by
    [create_sudoku_csp]. *)
Definition sudoku_groups : list (list name) :=
  map (fun row => map (fun col => cell row col) (seq 0 9)) (seq 0 9) ++
  map (fun col => map (fun row => cell row col) (seq 0 9)) (seq 0 9) ++
  flat_map (fun box_row =>
              map (fun box_col =>
                     flat_map (fun row =>
                                 map (fun col => cell row col)
                                     (seq (box_col * 3) 3))
                              (seq (box_row * 3) 3))
                  (seq 0 3))
           (seq 0 3).

(** The domains [create_sudoku_csp] registers for a board. *)
Definition board_domains (board : list string) : Dict.t (list value) :=
  map (fun rc => (cell (fst rc) (snd rc),
                  cell_domain board (fst rc) (snd rc)))
      grid_cells.

(** What holds between the calls of [add_all_different_constraint] made
    by [create_sudoku_csp]. *)
Definition sudoku_inv (D : Dict.t (list value)) (s : CSP) : Prop :=
  domains s = D /\
  variables s = grid_keys /\
  (forall k, In k grid_keys -> is_variable s k = true) /\
  all_differ s.

(** Every registered arc is consistent on the stored domains. *)
Definition all_consistent (s : CSP) : Prop :=
  forall p, In p (get_all_arcs s) -> arc_consistent s (fst p) (snd p) = true.

(** The assignment that gives every undecided variable of [a] the first
    value of its stored domain. *)
Definition first_values (s : CSP) (a a' : Assignment) : Prop :=
  forall k,
    Dict.get k a'
    = if undecided a k then Some [hd EmptyString (domain_of s k)]
      else Dict.get k a.

(** The 81 cells, all given as [1] except the first two, which may be
    [1] or [2] and must differ. *)
Definition twin_grid : CSP :=
  built (for_each
           (fun k => add_variable k
                       (if String.eqb k "0-0" || String.eqb k "0-1"
                        then ["1"; "2"] else ["1"]))
           grid_keys ;;;
         add_all_different_constraint ["0-0"; "0-1"]).

(** ** Facts about dictionaries *)

Module DictFacts.

Lemma get_set_same {V : Type} (k : name) (v : V) (d : Dict.t V) :
  Dict.get k (Dict.set k v d) = Some v.
Proof.
  induction d as [|[k' v'] r IH]; simpl.
  - now rewrite String.eqb_refl.
  - destruct (String.eqb k k') eqn:E; simpl; rewrite ?E, ?String.eqb_refl; auto.
Qed.

Lemma get_set_other {V : Type} (k k' : name) (v : V) (d : Dict.t V) :
  k' <> k -> Dict.get k' (Dict.set k v d) = Dict.get k' d.
Proof.
  intros Hne. induction d as [|[k0 v0] r IH]; simpl.
  - destruct (String.eqb k' k) eqn:E; auto.
    apply String.eqb_eq in E. contradiction.
  - destruct (String.eqb k k0) eqn:E; simpl.
    + apply String.eqb_eq in E. subst k0.
      destruct (String.eqb k' k) eqn:E'; auto.
      apply String.eqb_eq in E'. contradiction.
    + destruct (String.eqb k' k0); auto.
Qed.

Lemma set_set {V : Type} (k : name) (v v' : V) (d : Dict.t V) :
  Dict.set k v (Dict.set k v' d) = Dict.set k v d.
Proof.
  induction d as [|[k0 v0] r IH]; simpl.
  - now rewrite String.eqb_refl.
  - destruct (String.eqb k k0) eqn:E; simpl.
    + now rewrite String.eqb_refl.
    + rewrite E. now rewrite IH.
Qed.

Lemma keys_set_present {V : Type} (k : name) (v v0 : V) (d : Dict.t V) :
  Dict.get k d = Some v0 -> Dict.keys (Dict.set k v d) = Dict.keys d.
Proof.
  unfold Dict.keys.
  induction d as [|[k' v'] r IH]; simpl; [discriminate|].
  destruct (String.eqb k k') eqn:E; simpl; intros H.
  - apply String.eqb_eq in E. now subst.
  - f_equal. now apply IH.
Qed.

Lemma in_keys_get {V : Type} (k : name) (d : Dict.t V) :
  In k (Dict.keys d) <-> exists v, Dict.get k d = Some v.
Proof.
  induction d as [|[k' v'] r IH]; simpl.
  - split; [tauto | intros [v H]; discriminate].
  - destruct (String.eqb k k') eqn:E.
    + apply String.eqb_eq in E. subst. split; eauto.
    + apply String.eqb_neq in E. rewrite <- IH. split.
      * intros [H|H]; [congruence | assumption].
      * auto.
Qed.

Lemma mem_in_keys {V : Type} (k : name) (d : Dict.t V) :
  Dict.mem k d = true <-> In k (Dict.keys d).
Proof.
  rewrite in_keys_get. unfold Dict.mem.
  destruct (Dict.get k d); split; eauto; try discriminate.
  intros [v H]; discriminate.
Qed.

End DictFacts.

(** ** The constraint graph *)

Section Graph.

Lemma filter_twice {A : Type} (f g : A -> bool) (l : list A) :
  filter g (filter f l) = filter (fun x => f x && g x) l.
Proof.
  induction l as [|x r IH]; simpl; auto.
  destruct (f x); simpl; [destruct (g x)|]; now rewrite ?IH.
Qed.

Lemma stored_after_set (s : CSP) (i j : name) (l : pair_list)
    (ci : Dict.t pair_list) :
  stored (with_constraints
            (Dict.set i (Dict.set j l ci) (constraints s)) s) i j = Some l.
Proof.
  unfold stored, with_constraints; simpl.
  now rewrite !DictFacts.get_set_same.
Qed.

End Graph.

(** C7, as stated, fails: after adding [a -> b] with inequality and then
    with equality over domains [1, 2], the stored relation is empty, not
    the pairs of the product that satisfy equality alone. *)
Lemma add_constraint_twice_does_not_replace :
  stored added_twice_graph "a" "b" = Some [] /\
  filter (fun vp => String.eqb (fst vp) (snd vp))
         (get_all_possible_pairs ["1"; "2"] ["1"; "2"])
  = [("1", "1"); ("2", "2")] /\
  stored added_twice_graph "a" "b"
  <> Some (filter (fun vp => String.eqb (fst vp) (snd vp))
                  (get_all_possible_pairs ["1"; "2"] ["1"; "2"])).
Proof.
  repeat split; try reflexivity.
  vm_compute. discriminate.
Qed.

(** C7, amended: for registered variables [i] and [j] whose arc [i -> j]
    has no constraint yet, [add_constraint_one_way i j p] followed by
    [add_constraint_one_way i j q] both return, the first stores the pairs
    of the product of the two domains that satisfy [p], and the second
    leaves the pairs that satisfy both [p] and [q]: it filters what the
    first stored instead of replacing it. *)
Theorem add_constraint_twice_narrows
    (s : CSP) (i j : name) (p q : value -> value -> bool)
    (ci : Dict.t pair_list) (di dj : list value)
    (Hi : Dict.get i (constraints s) = Some ci)
    (Hfresh : Dict.get j ci = None)
    (Hdi : Dict.get i (domains s) = Some di)
    (Hdj : Dict.get j (domains s) = Some dj) :
  exists s1 s2,
    add_constraint_one_way i j p s = Return tt s1 /\
    add_constraint_one_way i j q s1 = Return tt s2 /\
    stored s1 i j
    = Some (filter (fun vp => p (fst vp) (snd vp))
                   (get_all_possible_pairs di dj)) /\
    stored s2 i j
    = Some (filter (fun vp => p (fst vp) (snd vp) && q (fst vp) (snd vp))
                   (get_all_possible_pairs di dj)) /\
    domains s2 = domains s.
Proof.
  set (l1 := filter (fun vp => p (fst vp) (snd vp))
                    (get_all_possible_pairs di dj)).
  set (s1 := with_constraints
               (Dict.set i (Dict.set j l1 ci) (constraints s)) s).
  set (l2 := filter (fun vp => q (fst vp) (snd vp)) l1).
  set (s2 := with_constraints
               (Dict.set i (Dict.set j l2 (Dict.set j l1 ci))
                         (constraints s1)) s1).
  exists s1, s2.
  assert (H1 : add_constraint_one_way i j p s = Return tt s1).
  { unfold add_constraint_one_way, bind, subscript, ret.
    now rewrite Hi, Hfresh, Hdi, Hdj. }
  assert (H2 : add_constraint_one_way i j q s1 = Return tt s2).
  { unfold add_constraint_one_way, bind, subscript, ret.
    unfold s1 at 1 2; simpl.
    now rewrite !DictFacts.get_set_same. }
  repeat split; auto.
  - apply stored_after_set.
  - unfold s2. rewrite stored_after_set. unfold l2, l1.
    now rewrite filter_twice.
Qed.

(** The amended C7 at a concrete graph. *)
Lemma add_constraint_twice_narrows_witness :
  exists s1 s2,
    add_constraint_one_way "a" "b" differ
      (built (add_variable "a" ["1"; "2"] ;;; add_variable "b" ["1"; "2"]))
    = Return tt s1 /\
    add_constraint_one_way "a" "b" String.eqb s1 = Return tt s2 /\
    stored s1 "a" "b" = Some [("1", "2"); ("2", "1")] /\
    stored s2 "a" "b" = Some [] /\
    domains s2 = [("a", ["1"; "2"]); ("b", ["1"; "2"])].
Proof.
  exact (add_constraint_twice_narrows
           (built (add_variable "a" ["1"; "2"] ;;; add_variable "b" ["1"; "2"]))
           "a" "b" differ String.eqb
           [] ["1"; "2"] ["1"; "2"]
           eq_refl eq_refl eq_refl eq_refl).
Defined.

(** C8, as stated, fails: with the single arc [a -> b], the neighbouring
    arcs of [b] do not contain [(a, b)], whose target is [b], and those of
    [a] contain [(b, a)], which was never added. *)
Lemma neighboring_arcs_are_not_incoming :
  registered one_way_graph "a" "b" = true /\
  registered one_way_graph "b" "a" = false /\
  get_all_neighboring_arcs "b" one_way_graph = Return [] one_way_graph /\
  get_all_neighboring_arcs "a" one_way_graph
  = Return [("b", "a")] one_way_graph.
Proof.
  repeat split; reflexivity.
Qed.

(** C8, amended: for a registered variable [v],
    [get_all_neighboring_arcs v] returns exactly the arcs [(k, v)] such
    that [v -> k] is a registered constraint; when every constraint is
    registered in both directions, these are the arcs [(k, v)] such that
    [k -> v] is registered. *)
Theorem get_all_neighboring_arcs_spec
    (s : CSP) (v : name) (cv : Dict.t pair_list)
    (Hv : Dict.get v (constraints s) = Some cv) :
  exists arcs,
    get_all_neighboring_arcs v s = Return arcs s /\
    (forall k w, In (k, w) arcs <-> w = v /\ registered s v k = true) /\
    ((forall i j, registered s i j = true -> registered s j i = true) ->
     forall k w, In (k, w) arcs <-> w = v /\ registered s k v = true).
Proof.
  exists (map (fun i => (i, v)) (Dict.keys cv)).
  assert (Hout : forall k w,
             In (k, w) (map (fun i => (i, v)) (Dict.keys cv))
             <-> w = v /\ registered s v k = true).
  { intros k w. unfold registered. rewrite Hv, DictFacts.mem_in_keys.
    rewrite in_map_iff. split.
    - intros [i [E Hin]]. inversion E; subst. auto.
    - intros [-> Hin]. exists k. auto. }
  split; [|split; auto].
  - unfold get_all_neighboring_arcs, bind, subscript, ret. now rewrite Hv.
  - intros Hsym k w. rewrite Hout. split; intros [-> H]; auto.
Qed.

Lemma two_way_graph_symmetric (i j : name) :
  registered two_way_graph i j = true -> registered two_way_graph j i = true.
Proof.
  unfold registered, two_way_graph, built; simpl.
  destruct (String.eqb i "a") eqn:Ea.
  - apply String.eqb_eq in Ea; subst i. unfold Dict.mem; simpl.
    destruct (String.eqb j "b") eqn:Eb; [|discriminate].
    apply String.eqb_eq in Eb; subst j. reflexivity.
  - destruct (String.eqb i "b") eqn:Eb; [|discriminate].
    apply String.eqb_eq in Eb; subst i. unfold Dict.mem; simpl.
    destruct (String.eqb j "a") eqn:Ea'; [|discriminate].
    apply String.eqb_eq in Ea'; subst j. reflexivity.
Qed.

(** The amended C8 at the graph with both arcs between [a] and [b]. *)
Lemma get_all_neighboring_arcs_spec_witness :
  exists arcs,
    get_all_neighboring_arcs "a" two_way_graph = Return arcs two_way_graph /\
    (forall k w,
        In (k, w) arcs <-> w = "a" /\ registered two_way_graph "a" k = true) /\
    (forall k w,
        In (k, w) arcs <-> w = "a" /\ registered two_way_graph k "a" = true).
Proof.
  destruct (get_all_neighboring_arcs_spec two_way_graph "a"
              [("b", [("1", "2"); ("2", "1")])] eq_refl)
    as [arcs [Hrun [Hout Hin]]].
  exists arcs. split; [exact Hrun|]. split; [exact Hout|].
  exact (Hin two_way_graph_symmetric).
Defined.

(** ** Variable selection *)

Section Selection.

Variable rnd : nat -> nat.

Lemma unfinished_has_undecided (a : Assignment) :
  finished a = false -> exists v, In v (unassigned a).
Proof.
  unfold finished, unassigned.
  induction (Dict.keys a) as [|k r IH]; simpl; [discriminate|].
  destruct (undecided a k); simpl.
  - intros _. exists k. now left.
  - intros H. destruct (IH H) as [v Hv]. now exists v.
Qed.

Lemma in_unassigned (a : Assignment) (v : name) :
  In v (unassigned a) <->
  In v (Dict.keys a) /\ exists d, Dict.get v a = Some d /\ 1 < length d.
Proof.
  unfold unassigned, undecided. rewrite filter_In. split.
  - intros [Hk Hu]. split; auto.
    destruct (Dict.get v a) as [d|]; [|discriminate].
    exists d. split; auto. now apply Nat.ltb_lt.
  - intros [Hk [d [Hd Hlen]]]. split; auto.
    rewrite Hd. now apply Nat.ltb_lt.
Qed.

Lemma random_choice_nonempty (seq : list name) (s : CSP) :
  seq <> [] ->
  exists v, In v seq /\
    random_choice rnd seq s
    = Return v (mkCSP (variables s) (domains s) (constraints s)
                      (backtrack_called s) (backtrack_failed s)
                      (S (random_draws s))).
Proof.
  intros Hne. unfold random_choice.
  assert (Hlt : rnd (random_draws s) mod length seq < length seq).
  { apply Nat.mod_upper_bound. destruct seq; simpl; congruence. }
  destruct (nth_error seq (rnd (random_draws s) mod length seq)) as [v|] eqn:E.
  - exists v. split; auto. eapply nth_error_In; eauto.
  - apply nth_error_None in E. lia.
Qed.

End Selection.

(** C10: when the completeness check of [backtrack] has found a variable
    with more than one value left, the list built by
    [select_unassigned_variable] is not empty, the random choice returns
    (it raises nothing), and the variable it returns is a key of the
    assignment whose list of values is longer than one. *)
Theorem select_unassigned_variable_succeeds
    (rnd : nat -> nat) (a : Assignment) (s : CSP)
    (Hunfinished : finished a = false) :
  unassigned a <> [] /\
  exists v s' d,
    select_unassigned_variable rnd a s = Return v s' /\
    domains s' = domains s /\
    In v (Dict.keys a) /\
    Dict.get v a = Some d /\
    1 < length d.
Proof.
  destruct (unfinished_has_undecided a Hunfinished) as [v0 Hv0].
  assert (Hne : unassigned a <> []).
  { intros E. rewrite E in Hv0. inversion Hv0. }
  split; auto.
  destruct (random_choice_nonempty rnd (unassigned a) s Hne) as [v [Hin Hrun]].
  apply in_unassigned in Hin. destruct Hin as [Hk [d [Hd Hlen]]].
  exists v. eexists. exists d. split; [exact Hrun|]. auto.
Qed.

(** C10 on an assignment with one decided and one undecided variable. *)
Lemma select_unassigned_variable_succeeds_witness :
  unassigned [("a", ["1"]); ("b", ["1"; "2"])] <> [] /\
  exists v s' d,
    select_unassigned_variable (fun n => n)
      [("a", ["1"]); ("b", ["1"; "2"])] two_way_graph = Return v s' /\
    domains s' = domains two_way_graph /\
    In v (Dict.keys [("a", ["1"]); ("b", ["1"; "2"])]) /\
    Dict.get v [("a", ["1"]); ("b", ["1"; "2"])] = Some d /\
    1 < length d.
Proof.
  exact (select_unassigned_variable_succeeds (fun n => n)
           [("a", ["1"]); ("b", ["1"; "2"])] two_way_graph eq_refl).
Defined.

(** ** Reasoning about calls *)

Section Post.

Context {A B : Type}.

Lemma post_bind (m : M A) (k : A -> M B) (s : CSP)
    (Q1 : A -> CSP -> Prop) (Q2 : B -> CSP -> Prop) :
  post (m s) Q1 ->
  (forall a s', Q1 a s' -> post (k a s') Q2) ->
  post (bind m k s) Q2.
Proof.
  unfold bind. destruct (m s); simpl; auto.
Qed.

Lemma post_weaken (o : outcome A) (Q1 Q2 : A -> CSP -> Prop) :
  post o Q1 -> (forall a s', Q1 a s' -> Q2 a s') -> post o Q2.
Proof.
  destruct o; simpl; auto.
Qed.

Lemma post_subscript {V : Type} (k : name) (d : Dict.t V) (s : CSP) :
  post (subscript k d s) (fun v s' => s' = s /\ Dict.get k d = Some v).
Proof.
  unfold subscript. destruct (Dict.get k d); simpl; auto.
Qed.

End Post.

(** ** Domains only shrink *)

Section Shrinking.

Lemma pointwise_shorter_refl (d : Dict.t (list value)) :
  pointwise_shorter d d.
Proof.
  induction d; constructor; auto.
Qed.

Lemma pointwise_shorter_trans (d1 d2 d3 : Dict.t (list value)) :
  pointwise_shorter d1 d2 -> pointwise_shorter d2 d3 ->
  pointwise_shorter d1 d3.
Proof.
  intros H12. revert d3.
  induction H12 as [|p q r1 r2 [Hk Hl] _ IH]; intros d3 H23;
    inversion H23 as [|q' t r2' r3 [Hk' Hl'] Hr]; subst; constructor.
  - split; [congruence | lia].
  - now apply IH.
Qed.

Lemma shrinks_refl (s : CSP) : shrinks s s.
Proof.
  split; auto using pointwise_shorter_refl.
Qed.

Lemma shrinks_trans (s1 s2 s3 : CSP) :
  shrinks s1 s2 -> shrinks s2 s3 -> shrinks s1 s3.
Proof.
  intros [C12 D12] [C23 D23]. split; [congruence|].
  eapply pointwise_shorter_trans; eauto.
Qed.

Lemma shrinks_same_fields (s s' : CSP) :
  constraints s' = constraints s -> domains s' = domains s -> shrinks s s'.
Proof.
  intros C D. split; auto. rewrite D. apply pointwise_shorter_refl.
Qed.

Lemma pointwise_shorter_get (d d' : Dict.t (list value)) (k : name)
    (l' : list value) :
  pointwise_shorter d d' -> Dict.get k d' = Some l' ->
  exists l, Dict.get k d = Some l /\ length l' <= length l.
Proof.
  induction 1 as [|[k1 l1] [k2 l2] r r' [Hk Hl] _ IH]; simpl in *;
    [discriminate|].
  subst k2. destruct (String.eqb k k1).
  - intros E. inversion E; subst. eauto.
  - auto.
Qed.

Lemma pointwise_shorter_total (d d' : Dict.t (list value)) :
  pointwise_shorter d d' -> total_size d' <= total_size d.
Proof.
  induction 1 as [|p q r r' [Hk Hl] _ IH]; simpl; lia.
Qed.

Lemma pointwise_shorter_set (d : Dict.t (list value)) (k : name)
    (l l' : list value) :
  Dict.get k d = Some l -> length l' <= length l ->
  pointwise_shorter d (Dict.set k l' d).
Proof.
  induction d as [|[k0 l0] r IH]; simpl; [discriminate|].
  destruct (String.eqb k k0) eqn:E; intros Hg Hl.
  - inversion Hg; subst. apply String.eqb_eq in E. subst.
    constructor; [simpl; auto | apply pointwise_shorter_refl].
  - constructor; [simpl; auto | now apply IH].
Qed.

Lemma total_size_set (d : Dict.t (list value)) (k : name)
    (l l' : list value) :
  Dict.get k d = Some l ->
  total_size (Dict.set k l' d) + length l = total_size d + length l'.
Proof.
  induction d as [|[k0 l0] r IH]; simpl; [discriminate|].
  destruct (String.eqb k k0); intros Hg; simpl.
  - inversion Hg; subst. lia.
  - specialize (IH Hg). lia.
Qed.

Lemma delete_while_enumerating_length (x : value) (l : list value) :
  length (delete_while_enumerating x l) <= length l /\
  (In x l -> length (delete_while_enumerating x l) < length l).
Proof.
  assert (Hle : length l <= length l) by lia.
  revert Hle. generalize (length l) at 2. intros n. revert l.
  induction n as [|n IH]; intros [|d r] Hle; simpl in *;
    try solve [lia | split; [lia | tauto]].
  destruct (String.eqb d x) eqn:E.
  - destruct r as [|d' r']; simpl in *; [split; lia|].
    destruct (IH r') as [H1 _]; [lia|]. split; intros; lia.
  - destruct (IH r) as [H1 H2]; [lia|]. simpl. split; [lia|].
    intros [Hd|Hin].
    + subst. rewrite String.eqb_refl in E. discriminate.
    + specialize (H2 Hin). lia.
Qed.

End Shrinking.

(** ** AC-3 terminates and only removes values *)

Section Propagation.

Lemma found_support_post (i j : name) (x : value) (s : CSP) :
  post (found_support i j x s) (fun _ s' => s' = s).
Proof.
  unfold found_support.
  destruct (Dict.get j (domains s)) as [[|y dj]|]; simpl; auto.
  destruct (Dict.get i (constraints s)) as [ci|]; simpl; auto.
  destruct (Dict.get j ci); simpl; auto.
Qed.

Lemma shrinks_delete (s : CSP) (i : name) (di : list value) (x : value) :
  Dict.get i (domains s) = Some di -> In x di ->
  let s' := with_domains
              (Dict.set i (delete_while_enumerating x di) (domains s)) s in
  shrinks s s' /\ total_size (domains s') < total_size (domains s).
Proof.
  intros Hg Hin s'.
  destruct (delete_while_enumerating_length x di) as [Hle Hlt].
  specialize (Hlt Hin). split.
  - split; [reflexivity|]. simpl.
    eapply pointwise_shorter_set; eauto.
  - simpl.
    pose proof (total_size_set (domains s) i di
                  (delete_while_enumerating x di) Hg). lia.
Qed.

Lemma revise_loop_post (fuel : nat) :
  forall (idx : nat) (i j : name) (rev : bool) (s : CSP),
    (forall di, Dict.get i (domains s) = Some di ->
                length di <= fuel + idx) ->
    post (revise_loop fuel idx i j rev s)
         (fun r s' =>
            shrinks s s' /\
            (rev = true -> r = true) /\
            if r then rev = true \/
                      total_size (domains s') < total_size (domains s)
            else s' = s).
Proof.
  induction fuel as [|fuel IH]; intros idx i j rev s Hlen; simpl;
    destruct (Dict.get i (domains s)) as [di|] eqn:Hg; simpl; auto;
    destruct (nth_error di idx) as [x|] eqn:Hn; simpl;
    try (split; [apply shrinks_refl | destruct rev; auto]).
  - specialize (Hlen di eq_refl).
    assert (idx < length di) by (apply nth_error_Some; congruence). lia.
  - specialize (Hlen di eq_refl).
    apply post_bind with (Q1 := fun _ s' => s' = s);
      [apply found_support_post|].
    intros found s' ->. destruct found.
    + apply IH. intros di' Hg'. rewrite Hg in Hg'. inversion Hg'; subst. lia.
    + unfold bind at 1.
      assert (Hin : In x di) by (eapply nth_error_In; eauto).
      destruct (shrinks_delete s i di x Hg Hin) as [Hsh Hlt].
      eapply post_weaken.
      * apply IH. intros di' Hg'. simpl in Hg'.
        rewrite DictFacts.get_set_same in Hg'. inversion Hg'; subst.
        destruct (delete_while_enumerating_length x di) as [_ Hd].
        specialize (Hd Hin). lia.
      * simpl. intros r s' [Hsh' [Htrue Hr]].
        rewrite (Htrue eq_refl).
        split; [eapply shrinks_trans; eauto | split; [auto|]].
        right. destruct Hsh' as [_ Hp].
        apply pointwise_shorter_total in Hp. simpl in *. lia.
Qed.

Lemma revise_post (a : Assignment) (i j : name) (s : CSP) :
  post (revise a i j s)
       (fun r s' =>
          shrinks s s' /\
          if r then total_size (domains s') < total_size (domains s)
          else s' = s).
Proof.
  unfold revise. destruct (Dict.get i (domains s)) as [di|] eqn:Hg;
    simpl; auto.
  eapply post_weaken.
  - apply revise_loop_post. intros di' Hg'.
    rewrite Hg in Hg'. inversion Hg'. lia.
  - simpl. intros r s' [Hsh [_ Hr]]. split; auto.
    destruct r; auto. destruct Hr as [Hr|Hr]; [discriminate | assumption].
Qed.

Lemma arcs_of_bound (c : Dict.t (Dict.t pair_list)) (i : name)
    (ci : Dict.t pair_list) :
  Dict.get i c = Some ci ->
  length ci
  <= length (flat_map (fun ic => map (fun jc => (fst ic, fst jc)) (snd ic)) c).
Proof.
  induction c as [|[k ck] r IH]; simpl; [discriminate|].
  rewrite length_app, length_map.
  destruct (String.eqb i k); intros H.
  - inversion H; subst. lia.
  - specialize (IH H). lia.
Qed.

Lemma neighboring_arcs_post (i : name) (s : CSP) :
  post (get_all_neighboring_arcs i s)
       (fun arcs s' => s' = s /\ length arcs <= length (get_all_arcs s)).
Proof.
  unfold get_all_neighboring_arcs, bind, subscript, ret.
  destruct (Dict.get i (constraints s)) as [ci|] eqn:Hg; simpl; auto.
  split; auto. unfold Dict.keys. rewrite !length_map.
  exact (arcs_of_bound (constraints s) i ci Hg).
Qed.

Lemma get_all_arcs_shrinks (s s' : CSP) :
  shrinks s s' -> get_all_arcs s' = get_all_arcs s.
Proof.
  intros [C _]. unfold get_all_arcs. now rewrite C.
Qed.

Lemma inference_loop_post (fuel : nat) :
  forall (a : Assignment) (queue : list (name * name)) (s : CSP),
    inference_fuel queue s <= fuel ->
    post (inference_loop fuel a queue s) (fun _ s' => shrinks s s').
Proof.
  induction fuel as [|fuel IH]; intros a [|[i j] queue] s Hfuel; simpl;
    try apply shrinks_refl.
  - unfold inference_fuel in Hfuel. simpl in Hfuel. lia.
  - eapply post_bind; [apply revise_post|].
    simpl. intros revised s1 [Hsh Hrev].
    unfold inference_fuel in *. simpl in Hfuel.
    destruct revised.
    + destruct (Dict.get i (domains s1)) as [[|x di]|]; simpl; auto.
      eapply post_bind; [apply neighboring_arcs_post|].
      simpl. intros arcs s2 [-> Harcs].
      eapply post_weaken.
      * apply IH. unfold inference_fuel.
        rewrite length_app.
        pose proof (filter_length_le
                      (fun k => negb (arc_eqb k (i, j))) arcs) as Hf.
        rewrite (get_all_arcs_shrinks _ _ Hsh) in *.
        set (n := length (get_all_arcs s)) in *.
        assert (S (total_size (domains s1)) * S n
                <= total_size (domains s) * S n)
          by (apply Nat.mul_le_mono_r; lia).
        simpl in H. lia.
      * simpl. intros _ s3 H3. eapply shrinks_trans; eauto.
    + subst s1. apply IH. unfold inference_fuel. lia.
Qed.

Lemma inference_post (a : Assignment) (queue : list (name * name))
    (s : CSP) :
  post (inference a queue s) (fun _ s' => shrinks s s').
Proof.
  unfold inference. now apply inference_loop_post.
Qed.

End Propagation.

(** ** The search terminates *)

Section SearchTerminates.

Variable rnd : nat -> nat.

Lemma filter_length_mono {A : Type} (f g : A -> bool) (l : list A) :
  (forall y, In y l -> f y = true -> g y = true) ->
  length (filter f l) <= length (filter g l).
Proof.
  induction l as [|y r IH]; simpl; intros H; auto.
  assert (IH' : length (filter f r) <= length (filter g r))
    by (apply IH; intros; apply H; auto).
  destruct (f y) eqn:Ef.
  - rewrite (H y (or_introl eq_refl) Ef). simpl. lia.
  - destruct (g y); simpl; lia.
Qed.

Lemma filter_length_strict {A : Type} (f g : A -> bool) (l : list A)
    (x : A) :
  (forall y, In y l -> f y = true -> g y = true) ->
  In x l -> g x = true -> f x = false ->
  length (filter f l) < length (filter g l).
Proof.
  induction l as [|y r IH]; simpl; intros H Hin Hg Hf; [contradiction|].
  assert (Hmono : length (filter f r) <= length (filter g r))
    by (apply filter_length_mono; intros; apply H; auto).
  destruct Hin as [->|Hin].
  - rewrite Hf, Hg. simpl. lia.
  - assert (IH' : length (filter f r) < length (filter g r))
      by (apply IH; auto).
    destruct (f y) eqn:Ef.
    + rewrite (H y (or_introl eq_refl) Ef). simpl. lia.
    + destruct (g y); simpl; lia.
Qed.

Lemma undecided_set (a : Assignment) (var k : name) (v : value) :
  undecided (Dict.set var [v] a) k
  = if String.eqb k var then false else undecided a k.
Proof.
  unfold undecided. destruct (String.eqb k var) eqn:E.
  - apply String.eqb_eq in E. subst. now rewrite DictFacts.get_set_same.
  - apply String.eqb_neq in E. now rewrite DictFacts.get_set_other.
Qed.

Lemma unassigned_set_decreases (a : Assignment) (var : name) (v : value) :
  In var (unassigned a) ->
  length (unassigned (Dict.set var [v] a)) < length (unassigned a).
Proof.
  intros Hin. apply in_unassigned in Hin.
  destruct Hin as [Hk [d [Hd Hlen]]].
  unfold unassigned. rewrite (DictFacts.keys_set_present var [v] d a Hd).
  apply filter_length_strict with (x := var); auto.
  - intros y _. rewrite undecided_set. destruct (String.eqb y var); auto.
    discriminate.
  - unfold undecided. rewrite Hd. now apply Nat.ltb_lt.
  - rewrite undecided_set. now rewrite String.eqb_refl.
Qed.

Lemma decides_refl (a : Assignment) : decides a a.
Proof.
  split; auto.
Qed.

Lemma decides_trans (a1 a2 a3 : Assignment) :
  decides a1 a2 -> decides a2 a3 -> decides a1 a3.
Proof.
  intros [K12 G12] [K23 G23]. split; [congruence|].
  intros k. destruct (G23 k) as [E|E]; auto.
  rewrite E. apply G12.
Qed.

Lemma decides_set (a : Assignment) (var : name) (v : value) :
  In var (Dict.keys a) -> decides a (Dict.set var [v] a).
Proof.
  intros Hin. apply DictFacts.in_keys_get in Hin. destruct Hin as [d Hd].
  split.
  - eapply DictFacts.keys_set_present; eauto.
  - intros k. destruct (String.eqb k var) eqn:E.
    + apply String.eqb_eq in E. subst. right. exists v.
      apply DictFacts.get_set_same.
    + apply String.eqb_neq in E. left.
      now apply DictFacts.get_set_other.
Qed.

Lemma random_choice_post (seq : list name) (s : CSP) :
  post (random_choice rnd seq s)
       (fun v s' => In v seq /\ shrinks s s').
Proof.
  unfold random_choice.
  destruct (nth_error seq (rnd (random_draws s) mod length seq)) as [v|]
    eqn:E; simpl; auto.
  split; [eapply nth_error_In; eauto|].
  now apply shrinks_same_fields.
Qed.

Lemma for_values_post (rec : Assignment -> M result) (k : nat)
    (Hrec : rec_spec rec k) (var : name) (a0 : Assignment)
    (Hvar : In var (unassigned a0))
    (Hk : length (unassigned a0) <= k) (fuel : nat) :
  forall (idx : nat) (a : Assignment) (s : CSP),
    (forall v, Dict.set var [v] a = Dict.set var [v] a0) ->
    (forall dv, Dict.get var (domains s) = Some dv ->
                length dv <= fuel + idx) ->
    post (for_values rec fuel idx var a s)
         (fun r s' => shrinks s s' /\ solved_from a0 r).
Proof.
  assert (Hkeys : In var (Dict.keys a0))
    by (apply in_unassigned in Hvar; tauto).
  induction fuel as [|fuel IH]; intros idx a s Ha Hlen; simpl;
    destruct (Dict.get var (domains s)) as [dv|] eqn:Hg; simpl; auto;
    destruct (nth_error dv idx) as [v|] eqn:Hn; simpl;
    try (split; [now apply shrinks_same_fields | exact I]).
  - specialize (Hlen dv eq_refl).
    assert (idx < length dv) by (apply nth_error_Some; congruence). lia.
  - specialize (Hlen dv eq_refl).
    assert (Hnext : forall s1, shrinks s s1 ->
              post ((avar <- subscript var a ;;
                     for_values rec fuel (S idx) var
                       (Dict.set var (delete_first v avar) a)) s1)
                   (fun r s' => shrinks s s' /\ solved_from a0 r)).
    { intros s1 Hs1. eapply post_bind; [apply post_subscript|].
      simpl. intros avar s2 [-> _].
      eapply post_weaken.
      - apply IH.
        + intros v'. rewrite DictFacts.set_set. apply Ha.
        + intros dv1 Hg1. destruct Hs1 as [_ Hp].
          destruct (pointwise_shorter_get _ _ _ _ Hp Hg1) as [l [Hl Hle]].
          rewrite Hg in Hl. inversion Hl; subst. lia.
      - simpl. intros r s' [Hsh Hr]. split; auto.
        eapply shrinks_trans; eauto. }
    eapply post_bind; [apply inference_post|].
    simpl. intros ok s1 Hs1. destruct ok; [|now apply Hnext].
    eapply post_bind.
    + apply Hrec. rewrite Ha.
      pose proof (unassigned_set_decreases a0 var v Hvar). lia.
    + simpl. intros r s2 [Hs2 Hr].
      assert (Hs02 : shrinks s s2) by (eapply shrinks_trans; eauto).
      destruct r as [|a']; [now apply Hnext|].
      unfold ret; simpl. split; auto.
      destruct Hr as [Hfin Hdec]. split; auto.
      eapply decides_trans; [|exact Hdec].
      rewrite Ha. now apply decides_set.
Qed.

Lemma backtrack_post (fuel : nat) :
  forall (a : Assignment) (s : CSP),
    length (unassigned a) < fuel ->
    post (backtrack rnd fuel a s)
         (fun r s' => shrinks s s' /\ solved_from a r).
Proof.
  induction fuel as [|fuel IH]; intros a s Hfuel; [lia|]. simpl.
  unfold bind at 1. unfold incr_called at 1.
  set (s0 := mkCSP _ _ _ _ _ _).
  assert (Hs0 : shrinks s s0) by now apply shrinks_same_fields.
  destruct (finished a) eqn:Hfin.
  - simpl. split; auto. split; auto. apply decides_refl.
  - eapply post_bind with (Q1 := fun _ s' => s' = s0).
    { unfold debug_print.
      destruct (forallb _ grid_keys); simpl; auto. }
    intros _ s' ->.
    eapply post_bind; [apply random_choice_post|].
    simpl. intros var s1 [Hvar Hs1].
    eapply post_bind; [apply post_subscript|].
    simpl. intros dv s2 [-> Hdv].
    eapply post_weaken.
    + assert (Hk : length (unassigned a) <= fuel) by lia.
      apply (for_values_post (backtrack rnd fuel) fuel IH var a Hvar Hk).
      * reflexivity.
      * intros dv' Hdv'. rewrite Hdv in Hdv'. inversion Hdv'. lia.
    + simpl. intros r s3 [Hs3 Hr]. split; auto.
      eapply shrinks_trans; [exact Hs0|].
      eapply shrinks_trans; eauto.
Qed.

Lemma backtracking_search_post (s : CSP) :
  post (backtracking_search rnd s)
       (fun r s' => shrinks s s' /\ solved_from (domains s) r).
Proof.
  unfold backtracking_search.
  eapply post_bind; [apply inference_post|].
  cbv beta. intros _ s1 Hs1.
  eapply post_weaken.
  - apply backtrack_post. unfold backtrack_fuel. lia.
  - cbv beta. intros r s2 [Hs2 Hr]. split; auto.
    eapply shrinks_trans; eauto.
Qed.

End SearchTerminates.

(** ** No exception on graphs that respect the builder contract *)

Section NoException.

Variable rnd : nat -> nat.

Lemma raises_bind {A B : Type} (m : M A) (k : A -> M B) (s : CSP) :
  raises (m s) = false ->
  (forall a s', m s = Return a s' -> raises (k a s') = false) ->
  raises (bind m k s) = false.
Proof.
  unfold bind. destruct (m s); simpl; auto.
Qed.

Lemma get_In {V : Type} (k : name) (v : V) (d : Dict.t V) :
  Dict.get k d = Some v -> In (k, v) d.
Proof.
  induction d as [|[k' v'] r IH]; simpl; [discriminate|].
  destruct (String.eqb k k') eqn:E; intros H.
  - apply String.eqb_eq in E. inversion H; subst. now left.
  - right. now apply IH.
Qed.

Lemma pointwise_shorter_keys (d d' : Dict.t (list value)) :
  pointwise_shorter d d' -> Dict.keys d' = Dict.keys d.
Proof.
  unfold Dict.keys.
  induction 1 as [|p q r r' [Hk _] _ IH]; simpl; congruence.
Qed.

Lemma mem_same_keys {V : Type} (d d' : Dict.t V) (k : name) :
  Dict.keys d' = Dict.keys d -> Dict.mem k d' = Dict.mem k d.
Proof.
  intros Hk.
  destruct (Dict.mem k d') eqn:E'; destruct (Dict.mem k d) eqn:E; auto.
  - apply DictFacts.mem_in_keys in E'. rewrite Hk in E'.
    apply DictFacts.mem_in_keys in E'. congruence.
  - apply DictFacts.mem_in_keys in E. rewrite <- Hk in E.
    apply DictFacts.mem_in_keys in E. congruence.
Qed.

Lemma arc_ok_shrinks (s s' : CSP) (i j : name) :
  shrinks s s' -> arc_ok s' i j = arc_ok s i j.
Proof.
  intros [C D]. apply pointwise_shorter_keys in D.
  unfold arc_ok, registered.
  now rewrite C, !(mem_same_keys _ _ _ D).
Qed.

Lemma arcs_ok_shrinks (s s' : CSP) :
  shrinks s s' -> arcs_ok s -> arcs_ok s'.
Proof.
  intros Hsh [H1 H2]. split.
  - intros i j Hin. rewrite (get_all_arcs_shrinks _ _ Hsh) in Hin.
    rewrite (arc_ok_shrinks _ _ _ _ Hsh). auto.
  - intros i ci k Hg Hin. rewrite (arc_ok_shrinks _ _ _ _ Hsh).
    destruct Hsh as [C _]. rewrite C in Hg. eauto.
Qed.

Lemma well_formed_arcs_ok (s : CSP) : well_formed s = true -> arcs_ok s.
Proof.
  unfold well_formed. rewrite forallb_forall. intros Hwf. split.
  - intros i j Hin. unfold get_all_arcs in Hin.
    apply in_flat_map in Hin. destruct Hin as [ic [Hic Hin]].
    apply in_map_iff in Hin. destruct Hin as [jc [E Hjc]].
    inversion E; subst.
    specialize (Hwf ic Hic). rewrite forallb_forall in Hwf.
    specialize (Hwf jc Hjc). now apply andb_true_iff in Hwf.
  - intros i ci k Hg Hin. apply get_In in Hg.
    apply in_map_iff in Hin. destruct Hin as [jc [E Hjc]]. subst k.
    specialize (Hwf (i, ci) Hg). rewrite forallb_forall in Hwf.
    specialize (Hwf jc Hjc). now apply andb_true_iff in Hwf.
Qed.

Lemma arc_ok_lookups (s : CSP) (i j : name) :
  arc_ok s i j = true ->
  exists di dj ci cij,
    Dict.get i (domains s) = Some di /\
    Dict.get j (domains s) = Some dj /\
    Dict.get i (constraints s) = Some ci /\
    Dict.get j ci = Some cij.
Proof.
  unfold arc_ok, registered, Dict.mem. intros H.
  apply andb_true_iff in H. destruct H as [H Hr].
  apply andb_true_iff in H. destruct H as [Hi Hj].
  destruct (Dict.get i (domains s)) as [di|]; [|discriminate].
  destruct (Dict.get j (domains s)) as [dj|]; [|discriminate].
  destruct (Dict.get i (constraints s)) as [ci|]; [|discriminate].
  destruct (Dict.get j ci) as [cij|] eqn:Hcij; [|discriminate].
  exists di, dj, ci, cij. auto.
Qed.

Lemma found_support_no_raise (i j : name) (x : value) (s : CSP) :
  arc_ok s i j = true -> raises (found_support i j x s) = false.
Proof.
  intros H. destruct (arc_ok_lookups s i j H)
    as [di [dj [ci [cij [Hdi [Hdj [Hci Hcij]]]]]]].
  unfold found_support. rewrite Hdj, Hci, Hcij. now destruct dj.
Qed.

Lemma revise_loop_no_raise (i j : name) (fuel : nat) :
  forall (idx : nat) (rev : bool) (s : CSP),
    arc_ok s i j = true ->
    raises (revise_loop fuel idx i j rev s) = false.
Proof.
  induction fuel as [|fuel IH]; intros idx rev s Hok;
    destruct (arc_ok_lookups s i j Hok) as [di [_ [_ [_ [Hdi _]]]]];
    simpl; rewrite Hdi; destruct (nth_error di idx) as [x|] eqn:Hn; auto.
  apply raises_bind; [now apply found_support_no_raise|].
  intros found s' Hf.
  pose proof (found_support_post i j x s) as Hp. rewrite Hf in Hp.
  simpl in Hp. subst s'. destruct found; [now apply IH|].
  unfold bind at 1. apply IH.
  assert (Hin : In x di) by (eapply nth_error_In; eauto).
  destruct (shrinks_delete s i di x Hdi Hin) as [Hsh _].
  now rewrite (arc_ok_shrinks _ _ _ _ Hsh).
Qed.

Lemma revise_no_raise (a : Assignment) (i j : name) (s : CSP) :
  arc_ok s i j = true -> raises (revise a i j s) = false.
Proof.
  intros Hok.
  destruct (arc_ok_lookups s i j Hok) as [di [_ [_ [_ [Hdi _]]]]].
  unfold revise. rewrite Hdi. now apply revise_loop_no_raise.
Qed.

Lemma inference_loop_no_raise (fuel : nat) :
  forall (a : Assignment) (queue : list (name * name)) (s : CSP),
    arcs_ok s ->
    (forall i j, In (i, j) queue -> arc_ok s i j = true) ->
    raises (inference_loop fuel a queue s) = false.
Proof.
  induction fuel as [|fuel IH]; intros a [|[i j] queue] s Hs Hq; simpl; auto.
  assert (Hij : arc_ok s i j = true) by (apply Hq; now left).
  apply raises_bind; [now apply revise_no_raise|].
  intros revised s1 Hrev.
  pose proof (revise_post a i j s) as Hp. rewrite Hrev in Hp.
  simpl in Hp. destruct Hp as [Hsh _].
  assert (Hs1 : arcs_ok s1) by (eapply arcs_ok_shrinks; eauto).
  assert (Hq1 : forall i' j', In (i', j') queue -> arc_ok s1 i' j' = true).
  { intros i' j' Hin. rewrite (arc_ok_shrinks _ _ _ _ Hsh).
    apply Hq. now right. }
  destruct revised; [|now apply IH].
  rewrite <- (arc_ok_shrinks _ _ _ _ Hsh) in Hij.
  destruct (arc_ok_lookups s1 i j Hij) as [di [_ [ci [_ [Hdi [_ [Hci _]]]]]]].
  rewrite Hdi. destruct di as [|x di]; auto.
  unfold get_all_neighboring_arcs, subscript, bind at 1 2, ret.
  rewrite Hci. apply IH; auto.
  intros i' j' Hin. apply in_app_or in Hin. destruct Hin as [Hin|Hin]; auto.
  apply filter_In in Hin. destruct Hin as [Hin _].
  apply in_map_iff in Hin. destruct Hin as [k [E Hk]]. inversion E; subst.
  destruct Hs1 as [_ H2]. eapply H2; eauto.
Qed.

Lemma inference_no_raise (a : Assignment) (s : CSP) :
  arcs_ok s -> raises (inference a (get_all_arcs s) s) = false.
Proof.
  intros Hs. unfold inference. apply inference_loop_no_raise; auto.
  destruct Hs as [H1 _]. exact H1.
Qed.

Lemma shrinks_keys (s s' : CSP) :
  shrinks s s' -> Dict.keys (domains s') = Dict.keys (domains s).
Proof.
  intros [_ D]. now apply pointwise_shorter_keys.
Qed.

Lemma search_inv_shrinks (a : Assignment) (s s' : CSP) :
  shrinks s s' -> search_inv a s -> search_inv a s'.
Proof.
  intros Hsh [Hok [Hk Hg]]. split; [eapply arcs_ok_shrinks; eauto|].
  split; auto. now rewrite (shrinks_keys _ _ Hsh).
Qed.

Lemma search_inv_set (a : Assignment) (s : CSP) (var : name)
    (l : list value) :
  In var (Dict.keys a) -> search_inv a s -> search_inv (Dict.set var l a) s.
Proof.
  intros Hin [Hok [Hk Hg]].
  apply DictFacts.in_keys_get in Hin. destruct Hin as [d Hd].
  pose proof (DictFacts.keys_set_present var l d a Hd) as E.
  split; auto. split; [congruence|]. intros k Hk'. rewrite E. auto.
Qed.

Lemma for_values_no_raise (rec : Assignment -> M result) (k : nat)
    (Hrec : rec_spec rec k)
    (Hsafe : forall a s, length (unassigned a) < k -> search_inv a s ->
                         raises (rec a s) = false)
    (var : name) (a0 : Assignment) (Hvar : In var (unassigned a0))
    (Hk : length (unassigned a0) <= k) (fuel : nat) :
  forall (idx : nat) (a : Assignment) (s : CSP),
    (forall v, Dict.set var [v] a = Dict.set var [v] a0) ->
    Dict.keys a = Dict.keys a0 ->
    search_inv a0 s ->
    raises (for_values rec fuel idx var a s) = false.
Proof.
  assert (Hkeys : In var (Dict.keys a0))
    by (apply in_unassigned in Hvar; tauto).
  induction fuel as [|fuel IH]; intros idx a s Ha Hka Hinv; simpl;
    destruct (Dict.get var (domains s)) as [dv|] eqn:Hg;
    try destruct (nth_error dv idx) as [v|] eqn:Hn; auto;
    try (exfalso; destruct Hinv as [_ [Hk0 _]]; rewrite Hk0 in Hkeys;
         apply DictFacts.in_keys_get in Hkeys; destruct Hkeys as [d Hd];
         congruence).
  assert (Hnext : forall s1, shrinks s s1 ->
            raises ((avar <- subscript var a ;;
                     for_values rec fuel (S idx) var
                       (Dict.set var (delete_first v avar) a)) s1) = false).
  { intros s1 Hs1.
    assert (Hva : In var (Dict.keys a)) by now rewrite Hka.
    apply DictFacts.in_keys_get in Hva. destruct Hva as [avar Havar].
    unfold subscript, bind, ret. rewrite Havar. apply IH.
    - intros v'. rewrite DictFacts.set_set. apply Ha.
    - rewrite (DictFacts.keys_set_present _ _ _ _ Havar). exact Hka.
    - eapply search_inv_shrinks; eauto. }
  assert (Hinv' : search_inv (Dict.set var [v] a) s).
  { rewrite Ha. now apply search_inv_set. }
  apply raises_bind.
  { apply inference_no_raise. now destruct Hinv. }
  intros ok s1 Hinf.
  pose proof (inference_post (Dict.set var [v] a) (get_all_arcs s) s) as Hp.
  rewrite Hinf in Hp. simpl in Hp.
  destruct ok; [|now apply Hnext].
  assert (Hlt : length (unassigned (Dict.set var [v] a)) < k).
  { rewrite Ha. pose proof (unassigned_set_decreases a0 var v Hvar). lia. }
  apply raises_bind.
  { apply Hsafe; auto. eapply search_inv_shrinks; eauto. }
  intros r s2 Hr.
  pose proof (Hrec (Dict.set var [v] a) s1 Hlt) as Hp2.
  rewrite Hr in Hp2. simpl in Hp2. destruct Hp2 as [Hs2 _].
  destruct r; [|reflexivity].
  apply Hnext. eapply shrinks_trans; eauto.
Qed.

Lemma backtrack_no_raise (fuel : nat) :
  forall (a : Assignment) (s : CSP),
    length (unassigned a) < fuel ->
    search_inv a s ->
    raises (backtrack rnd fuel a s) = false.
Proof.
  induction fuel as [|fuel IH]; intros a s Hfuel Hinv; [reflexivity|].
  simpl. unfold bind at 1. unfold incr_called at 1.
  set (s0 := mkCSP _ _ _ _ _ _).
  assert (Hs0 : shrinks s s0) by now apply shrinks_same_fields.
  assert (Hinv0 : search_inv a s0) by (eapply search_inv_shrinks; eauto).
  destruct (finished a) eqn:Hfin; [reflexivity|].
  assert (Hgrid : forallb (fun k => Dict.mem k a) grid_keys = true).
  { apply forallb_forall. intros k Hk. apply DictFacts.mem_in_keys.
    destruct Hinv as [_ [_ Hg]]. auto. }
  unfold debug_print. rewrite Hgrid. unfold bind at 1, ret at 1.
  destruct (unfinished_has_undecided a Hfin) as [v0 Hv0].
  assert (Hne : unassigned a <> []).
  { intros E. rewrite E in Hv0. inversion Hv0. }
  destruct (random_choice_nonempty rnd (unassigned a) s0 Hne)
    as [var [Hvar Hrun]].
  unfold select_unassigned_variable, bind at 1. rewrite Hrun.
  set (s1 := mkCSP _ _ _ _ _ _).
  assert (Hs1 : shrinks s0 s1) by now apply shrinks_same_fields.
  assert (Hinv1 : search_inv a s1) by (eapply search_inv_shrinks; eauto).
  assert (Hva : In var (Dict.keys (domains s1))).
  { destruct Hinv1 as [_ [Hk1 _]]. rewrite <- Hk1.
    apply in_unassigned in Hvar. tauto. }
  apply DictFacts.in_keys_get in Hva. destruct Hva as [dv Hdv].
  unfold subscript, bind, ret. rewrite Hdv.
  assert (Hk : length (unassigned a) <= fuel) by lia.
  apply (for_values_no_raise (backtrack rnd fuel) fuel
           (backtrack_post rnd fuel) IH) with (a0 := a); auto.
Qed.

Lemma backtracking_search_no_raise (s : CSP) :
  well_formed s = true -> on_grid s = true ->
  raises (backtracking_search rnd s) = false.
Proof.
  intros Hwf Hgrid. apply well_formed_arcs_ok in Hwf.
  unfold backtracking_search.
  apply raises_bind; [now apply inference_no_raise|].
  intros ok s1 Hinf.
  pose proof (inference_post (domains s) (get_all_arcs s) s) as Hp.
  rewrite Hinf in Hp. simpl in Hp.
  apply backtrack_no_raise; [unfold backtrack_fuel; lia|].
  apply (search_inv_shrinks _ s s1 Hp).
  split; auto. split; auto.
  intros k Hk. apply DictFacts.mem_in_keys.
  unfold on_grid in Hgrid. rewrite forallb_forall in Hgrid. auto.
Qed.

End NoException.

(** ** What the search returns *)

Section Outcome.

Lemma finished_lengths (a : Assignment) (v : name) :
  finished a = true -> In v (Dict.keys a) ->
  exists d, Dict.get v a = Some d /\ length d <= 1.
Proof.
  unfold finished. rewrite forallb_forall. intros Hall Hin.
  specialize (Hall v Hin). unfold undecided in Hall.
  apply DictFacts.in_keys_get in Hin. destruct Hin as [d Hd].
  exists d. split; auto. rewrite Hd in Hall.
  destruct (1 <? length d) eqn:E; [discriminate|].
  apply Nat.ltb_ge in E. exact E.
Qed.

Lemma solved_from_lengths (a a' : Assignment) (v : name) :
  solved_from a (PyDict a') -> In v (Dict.keys a') ->
  exists d, Dict.get v a' = Some d /\ length d <= 1 /\
            (Dict.get v a = Some d \/ length d = 1).
Proof.
  intros [Hfin [Hkeys Hget]] Hin.
  destruct (finished_lengths a' v Hfin Hin) as [d [Hd Hlen]].
  exists d. repeat split; auto.
  destruct (Hget v) as [E|[x E]].
  - left. congruence.
  - right. rewrite Hd in E. inversion E. reflexivity.
Qed.

End Outcome.

(** C5, as stated, fails: on the pigeonhole graph the entry point returns
    an assignment that breaks the registered arc [a -> b]; on the clashing
    grid it signals that there is no solution by returning the bare value
    [False]; and on the two-variable graph, which is not a Sudoku grid, it
    raises [KeyError]. *)
Lemma search_result_neither_complete_nor_typed :
  (exists a s',
      backtracking_search (fun n => n) pigeonhole_graph
      = Return (PyDict a) s' /\
      registered pigeonhole_graph "a" "b" = true /\
      arc_satisfied pigeonhole_graph a "a" "b" = false) /\
  (exists s',
      backtracking_search (fun n => n) clashing_grid = Return PyFalse s') /\
  (exists s',
      backtracking_search (fun n => n) two_way_graph = Raise KeyError s').
Proof.
  split; [|split].
  - eexists. eexists. split; [vm_compute; reflexivity|].
    split; vm_compute; reflexivity.
  - eexists. vm_compute. reflexivity.
  - eexists. vm_compute. reflexivity.
Qed.

(** C5, amended: for every graph and every sequence of random draws the
    entry point terminates; whenever it returns, it returns either the
    value [False] or an assignment with the keys of the registered domains
    in which no variable has more than one value, each list being the
    registered domain or a single value, and the constraints are the same
    afterwards; and it does return, raising nothing, when every constraint
    is registered in both directions between registered variables and the
    variables include the 81 cells of the grid. *)
Theorem backtracking_search_outcome (rnd : nat -> nat) (s : CSP) :
  match backtracking_search rnd s with
  | Return PyFalse s' => constraints s' = constraints s
  | Return (PyDict a) s' =>
      constraints s' = constraints s /\
      Dict.keys a = Dict.keys (domains s) /\
      forall v, In v (Dict.keys a) ->
                exists d, Dict.get v a = Some d /\ length d <= 1 /\
                          (Dict.get v (domains s) = Some d \/ length d = 1)
  | Raise _ _ => True
  | OutOfFuel => False
  end /\
  (well_formed s = true -> on_grid s = true ->
   exists r s', backtracking_search rnd s = Return r s').
Proof.
  pose proof (backtracking_search_post rnd s) as H.
  pose proof (backtracking_search_no_raise rnd s) as Hsafe.
  destruct (backtracking_search rnd s) as [[|a] s'|e s'|]; simpl in H;
    (split; [|intros Hwf Hgrid; specialize (Hsafe Hwf Hgrid)]);
    try discriminate; try contradiction; eauto.
  - destruct H as [[C _] _]. exact C.
  - destruct H as [[C _] Hsol]. split; [exact C|]. split.
    + destruct Hsol as [_ [K _]]. exact K.
    + intros v Hv. eapply solved_from_lengths; eauto.
Qed.

(** The amended C5 on the clashing grid. *)
Lemma backtracking_search_outcome_witness :
  well_formed clashing_grid = true /\
  on_grid clashing_grid = true /\
  exists r s', backtracking_search (fun n => n) clashing_grid = Return r s'.
Proof.
  split; [vm_compute; reflexivity|].
  split; [vm_compute; reflexivity|].
  apply (backtracking_search_outcome (fun n => n) clashing_grid);
    vm_compute; reflexivity.
Defined.

(** ** The search on concrete graphs *)

(** C1 does not hold of the code.  On the pigeonhole graph, whatever the
    random draws, the entry point returns the assignment [a = 1, b = 1]
    although the stored relation of the registered arc [a -> b] is empty.
    On the Sudoku with four emptied cells it returns a grid with [1] in
    both cells [3-5] and [3-8] of row 3, whose arc only allows different
    values. *)
Theorem search_returns_violating_assignment :
  (forall rnd, exists s',
      backtracking_search rnd pigeonhole_graph
      = Return (PyDict [("a", ["1"]); ("b", ["1"])]) s') /\
  registered pigeonhole_graph "a" "b" = true /\
  stored pigeonhole_graph "a" "b" = Some [] /\
  all_singletons [("a", ["1"]); ("b", ["1"])] = true /\
  arc_satisfied pigeonhole_graph [("a", ["1"]); ("b", ["1"])] "a" "b"
  = false /\
  (exists a s',
      backtracking_search (fun n => n) rectangle_sudoku
      = Return (PyDict a) s' /\
      all_singletons a = true /\
      Dict.get "3-5" a = Some ["1"] /\
      Dict.get "3-8" a = Some ["1"] /\
      registered rectangle_sudoku "3-5" "3-8" = true /\
      arc_satisfied rectangle_sudoku a "3-5" "3-8" = false).
Proof.
  split; [intros rnd; eexists; vm_compute; reflexivity|].
  repeat (split; [vm_compute; reflexivity|]).
  eexists. eexists. split; [vm_compute; reflexivity|].
  repeat split; vm_compute; reflexivity.
Qed.

(** C2 does not hold of the code.  The search deletes from
    [self.domains]: on the pigeonhole graph the registered domain [1] of
    [a] is empty after the search, and on the Sudoku the first propagation
    cuts the registered domain [1 .. 9] of cell [3-5] down to [1, 3]. *)
Theorem search_prunes_registered_domains :
  domains pigeonhole_graph = [("a", ["1"]); ("b", ["1"])] /\
  (forall rnd,
      domains (state_after (backtracking_search rnd pigeonhole_graph)
                           pigeonhole_graph)
      = [("a", []); ("b", ["1"])]) /\
  Dict.get "3-5" (domains rectangle_sudoku) = Some (map str (seq 1 9)) /\
  Dict.get "3-5" (domains (state_after (propagate_all rectangle_sudoku)
                                       rectangle_sudoku))
  = Some ["1"; "3"].
Proof.
  split; [reflexivity|].
  split; [intros rnd; vm_compute; reflexivity|].
  split; vm_compute; reflexivity.
Qed.

(** C3 does not hold of the code.  With [b] decided as [1] in the
    assignment, the value [1] of [a] has no partner left, but [revise]
    reads the stored domains, finds a partner there and returns [False]
    without any change.  And where it does delete, on the graph that
    wants [a = 1], it deletes [3] from the stored domain of [a], passes
    over [4], which has no partner either, and the result is the same
    for every assignment passed in. *)
Theorem revise_reads_and_prunes_stored_domains :
  stored two_way_graph "a" "b" = Some [("1", "2"); ("2", "1")] /\
  revise [("a", ["1"; "2"]); ("b", ["1"])] "a" "b" two_way_graph
  = Return false two_way_graph /\
  stored must_be_one_graph "a" "b" = Some [("1", "2")] /\
  (forall assignment,
      revise assignment "a" "b" must_be_one_graph
      = Return true
          (with_domains [("a", ["4"; "1"]); ("b", ["2"])] must_be_one_graph)) /\
  (forall assignment assignment' i j s,
      revise assignment i j s = revise assignment' i j s).
Proof.
  split; [reflexivity|]. split; [vm_compute; reflexivity|].
  split; [reflexivity|]. split.
  - intros assignment. vm_compute. reflexivity.
  - intros assignment assignment' i j s. reflexivity.
Qed.

(** C4 does not hold of the code.  On the pigeonhole graph the first
    propagation over all arcs fails, and the entry point goes on to call
    [backtrack], once, and returns what it returns. *)
Theorem initial_failure_is_ignored :
  (exists s1, propagate_all pigeonhole_graph = Return false s1) /\
  (forall rnd, exists s2,
      backtracking_search rnd pigeonhole_graph
      = Return (PyDict [("a", ["1"]); ("b", ["1"])]) s2 /\
      backtrack_called s2 = 1).
Proof.
  split; [eexists; vm_compute; reflexivity|].
  intros rnd. eexists. split; vm_compute; reflexivity.
Qed.

(** C6 does not hold of the code.  The completeness test only looks for
    lists longer than one, so an assignment with an empty list passes it:
    [backtrack] returns it as solved, and so does the entry point on a
    graph with a variable registered with the empty domain. *)
Theorem empty_domain_returned_as_solved :
  finished [("a", []); ("b", ["1"])] = true /\
  (forall rnd, exists s',
      backtrack rnd 1 [("a", []); ("b", ["1"])] empty_domain_graph
      = Return (PyDict [("a", []); ("b", ["1"])]) s') /\
  (forall rnd, exists s',
      backtracking_search rnd empty_domain_graph
      = Return (PyDict [("a", []); ("b", ["1"])]) s').
Proof.
  split; [reflexivity|].
  split; intros rnd; eexists; vm_compute; reflexivity.
Qed.

(** C9 does not hold of the code.  On the graph that wants [a = 1] a
    first propagation over all arcs succeeds and leaves [4, 1] for [a]; a
    second one with the same assignment and the same queue succeeds and
    removes [4].  On the lopsided graph the first propagation succeeds
    and the second one, from the same queue, fails. *)
Theorem second_propagation_changes_domains :
  (exists s1 s2,
      propagate_all must_be_one_graph = Return true s1 /\
      domains s1 = [("a", ["4"; "1"]); ("b", ["2"])] /\
      inference (domains must_be_one_graph) (get_all_arcs must_be_one_graph) s1
      = Return true s2 /\
      domains s2 = [("a", ["1"]); ("b", ["2"])]) /\
  (exists s1 s2,
      propagate_all lopsided_graph = Return true s1 /\
      inference (domains lopsided_graph) (get_all_arcs lopsided_graph) s1
      = Return false s2).
Proof.
  split.
  - eexists. eexists. split; [vm_compute; reflexivity|].
    split; [reflexivity|]. split; vm_compute; reflexivity.
  - eexists. eexists. split; vm_compute; reflexivity.
Qed.

(** ** Further properties: building the graph *)

Section Building.

Lemma filter_idem {A : Type} (f : A -> bool) (l : list A) :
  filter f (filter f l) = filter f l.
Proof.
  induction l as [|x r IH]; simpl; auto.
  destruct (f x) eqn:E; simpl; rewrite ?E, IH; reflexivity.
Qed.

Lemma mem_get {V : Type} (k : name) (d : Dict.t V) :
  Dict.mem k d = true <-> exists v, Dict.get k d = Some v.
Proof.
  unfold Dict.mem. destruct (Dict.get k d) as [v|]; split; eauto;
    try discriminate. intros [v H]. discriminate.
Qed.

Lemma mem_set {V : Type} (k k' : name) (v : V) (d : Dict.t V) :
  Dict.mem k' (Dict.set k v d) = String.eqb k' k || Dict.mem k' d.
Proof.
  unfold Dict.mem. destruct (String.eqb k' k) eqn:E.
  - apply String.eqb_eq in E. subst. now rewrite DictFacts.get_set_same.
  - apply String.eqb_neq in E. now rewrite DictFacts.get_set_other.
Qed.

Lemma arc_eqb_eq (p q : name * name) : arc_eqb p q = true <-> p = q.
Proof.
  destruct p as [a b], q as [c d]. unfold arc_eqb; simpl.
  rewrite andb_true_iff, !String.eqb_eq. split.
  - intros [-> ->]. reflexivity.
  - intros E. inversion E. auto.
Qed.

(** What one successful [add_constraint_one_way] does. *)
Lemma add_constraint_one_way_run (i j : name) (f : value -> value -> bool)
    (s : CSP) :
  can_add s i j = true ->
  exists s',
    add_constraint_one_way i j f s = Return tt s' /\
    domains s' = domains s /\
    variables s' = variables s /\
    stored s' i j = Some (filter (keep f) (base_pairs s i j)) /\
    (forall i' j', (i', j') <> (i, j) -> stored s' i' j' = stored s i' j') /\
    (forall k, Dict.mem k (constraints s') = Dict.mem k (constraints s)).
Proof.
  unfold can_add. intros Hcan.
  destruct (Dict.get i (constraints s)) as [ci|] eqn:Hci; [|discriminate].
  assert (Hbase : exists cij,
             (match Dict.get j ci with
              | Some l => ret l
              | None =>
                  di <- subscript i (domains s) ;;
                  dj <- subscript j (domains s) ;;
                  ret (get_all_possible_pairs di dj)
              end) s = Return cij s /\ cij = base_pairs s i j).
  { unfold base_pairs, stored, domain_of. rewrite Hci.
    destruct (Dict.get j ci) as [l|] eqn:Hj.
    - exists l. split; reflexivity.
    - unfold Dict.mem in Hcan. rewrite Hj in Hcan. simpl in Hcan.
      unfold subscript, bind, ret.
      destruct (Dict.get i (domains s)) as [di|]; [|discriminate].
      destruct (Dict.get j (domains s)) as [dj|]; [|discriminate].
      eexists. split; reflexivity. }
  destruct Hbase as [cij [Hrun Hcij]].
  eexists. split.
  { unfold add_constraint_one_way. unfold bind at 1, subscript at 1.
    rewrite Hci. unfold ret at 1. unfold bind at 1. rewrite Hrun.
    reflexivity. }
  split; [reflexivity|]. split; [reflexivity|]. split; [|split].
  - rewrite stored_after_set. now rewrite Hcij.
  - intros i' j' Hne. unfold stored, with_constraints; simpl.
    destruct (String.eqb i' i) eqn:Ei.
    + apply String.eqb_eq in Ei. subst i'.
      rewrite DictFacts.get_set_same, Hci.
      apply DictFacts.get_set_other. congruence.
    + apply String.eqb_neq in Ei. now rewrite DictFacts.get_set_other.
  - intros k. simpl. rewrite mem_set.
    destruct (String.eqb k i) eqn:Ei; auto.
    apply String.eqb_eq in Ei. subst. unfold Dict.mem. now rewrite Hci.
Qed.

End Building.

(** X1 ([add_variable]): the call always returns; afterwards the name is
    the last entry of [variables], its domain is the list given and it has
    no outgoing constraint, whatever it had before; the domains and the
    outgoing constraints of every other variable are untouched, arcs
    pointing to the name included. *)
Theorem add_variable_registers (n : name) (d : list value) (s : CSP) :
  exists s',
    add_variable n d s = Return tt s' /\
    variables s' = variables s ++ [n] /\
    Dict.get n (domains s') = Some d /\
    Dict.get n (constraints s') = Some [] /\
    (forall j, registered s' n j = false) /\
    (forall k, k <> n ->
               Dict.get k (domains s') = Dict.get k (domains s) /\
               Dict.get k (constraints s') = Dict.get k (constraints s)) /\
    (forall k j, k <> n -> registered s' k j = registered s k j).
Proof.
  eexists. split; [reflexivity|]. simpl.
  split; [reflexivity|].
  split; [apply DictFacts.get_set_same|].
  split; [apply DictFacts.get_set_same|].
  split; [|split].
  - intros j. unfold registered; simpl.
    now rewrite DictFacts.get_set_same.
  - intros k Hk. split; now apply DictFacts.get_set_other.
  - intros k j Hk. unfold registered; simpl.
    now rewrite DictFacts.get_set_other.
Qed.

(** X2 ([add_constraint_one_way], missing keys): when [i] has no entry in
    [self.constraints], or when the arc is new and [i] or [j] has no
    domain, the call raises [KeyError] and leaves the object as it was. *)
Theorem add_constraint_one_way_key_error (i j : name)
    (f : value -> value -> bool) (s : CSP)
    (Hmissing : can_add s i j = false) :
  add_constraint_one_way i j f s = Raise KeyError s.
Proof.
  unfold can_add in Hmissing.
  unfold add_constraint_one_way, bind, subscript, ret, raise.
  destruct (Dict.get i (constraints s)) as [ci|]; [|reflexivity].
  apply orb_false_iff in Hmissing. destruct Hmissing as [Hj Hdom].
  unfold Dict.mem in Hj, Hdom.
  destruct (Dict.get j ci); [discriminate|].
  destruct (Dict.get i (domains s)); [|reflexivity].
  destruct (Dict.get j (domains s)); [discriminate|reflexivity].
Qed.

(** X2 on a graph where [b] was never added. *)
Lemma add_constraint_one_way_key_error_witness :
  can_add (built (add_variable "a" ["1"])) "a" "b" = false /\
  add_constraint_one_way "a" "b" differ (built (add_variable "a" ["1"]))
  = Raise KeyError (built (add_variable "a" ["1"])).
Proof.
  split; [reflexivity|].
  exact (add_constraint_one_way_key_error "a" "b" differ
           (built (add_variable "a" ["1"])) eq_refl).
Defined.

(** X3 ([add_constraint_one_way], effect): when the lookups succeed the
    call returns; the relation stored for [i -> j] is the previous one, or
    for a new arc the product of the two domains, filtered by the
    predicate; for a new arc it holds exactly the pairs [(x, y)] with [x]
    in the domain of [i], [y] in the domain of [j] and [f x y]; no other
    arc, no domain and no key of [self.constraints] changes. *)
Theorem add_constraint_one_way_stores (i j : name)
    (f : value -> value -> bool) (s : CSP)
    (Hcan : can_add s i j = true) :
  exists s' l,
    add_constraint_one_way i j f s = Return tt s' /\
    stored s' i j = Some l /\
    l = filter (keep f) (base_pairs s i j) /\
    (stored s i j = None ->
     forall x y, In (x, y) l <->
                 In x (domain_of s i) /\ In y (domain_of s j) /\
                 f x y = true) /\
    domains s' = domains s /\
    (forall i' j', (i', j') <> (i, j) -> stored s' i' j' = stored s i' j') /\
    (forall k, Dict.mem k (constraints s') = Dict.mem k (constraints s)).
Proof.
  destruct (add_constraint_one_way_run i j f s Hcan)
    as [s' [Hrun [Hdom [_ [Hst [Hframe Hkeys]]]]]].
  exists s', (filter (keep f) (base_pairs s i j)).
  repeat (split; [assumption || reflexivity|]).
  split; [|split; [assumption|split; assumption]].
  intros Hnew x y. unfold base_pairs. rewrite Hnew.
  rewrite filter_In. unfold get_all_possible_pairs, keep; simpl.
  rewrite in_prod_iff. tauto.
Qed.

(** X3 on the first constraint of the two-variable graph. *)
Lemma add_constraint_one_way_stores_witness :
  exists s' l,
    add_constraint_one_way "a" "b" differ
      (built (add_variable "a" ["1"; "2"] ;;; add_variable "b" ["1"; "2"]))
    = Return tt s' /\
    stored s' "a" "b" = Some l /\
    l = [("1", "2"); ("2", "1")].
Proof.
  destruct (add_constraint_one_way_stores "a" "b" differ
              (built (add_variable "a" ["1"; "2"] ;;;
                      add_variable "b" ["1"; "2"])) eq_refl)
    as [s' [l [Hrun [Hst [Hl _]]]]].
  exists s', l. repeat split; assumption.
Defined.

Section AllDifferent.

Lemma in_get_nodup {V : Type} (k : name) (v : V) (d : Dict.t V) :
  NoDup (Dict.keys d) -> In (k, v) d -> Dict.get k d = Some v.
Proof.
  unfold Dict.keys.
  induction d as [|[k' v'] r IH]; simpl; intros Hnd Hin; [contradiction|].
  inversion Hnd as [|? ? Hnotin Hnd']; subst.
  destruct Hin as [E|Hin].
  - inversion E; subst. now rewrite String.eqb_refl.
  - destruct (String.eqb k k') eqn:Ek.
    + apply String.eqb_eq in Ek. subst. exfalso. apply Hnotin.
      apply in_map_iff. exists (k', v). auto.
    + now apply IH.
Qed.

Lemma is_variable_lookups (s : CSP) (v : name) :
  is_variable s v = true ->
  (exists ci, Dict.get v (constraints s) = Some ci) /\
  (exists d, Dict.get v (domains s) = Some d).
Proof.
  unfold is_variable. rewrite andb_true_iff, !mem_get. tauto.
Qed.

Lemma can_add_variables (s : CSP) (i j : name) :
  is_variable s i = true -> is_variable s j = true -> can_add s i j = true.
Proof.
  unfold is_variable, can_add. rewrite !andb_true_iff.
  intros [Hci Hdi] [_ Hdj]. apply mem_get in Hci. destruct Hci as [ci ->].
  rewrite Hdi, Hdj. apply orb_true_r.
Qed.

Lemma base_pairs_frame (s s' : CSP) (i j : name) :
  domains s' = domains s -> stored s' i j = stored s i j ->
  base_pairs s' i j = base_pairs s i j.
Proof.
  intros Hd Hs. unfold base_pairs, domain_of. now rewrite Hs, Hd.
Qed.

(** The loop of [add_all_different_constraint] over any list of pairs of
    variables. *)
Lemma for_each_differ (ps : list (name * name)) :
  forall s : CSP,
    (forall p, In p ps -> is_variable s (fst p) = true /\
                          is_variable s (snd p) = true) ->
    exists s',
      for_each
        (fun ij =>
           if String.eqb (fst ij) (snd ij) then ret tt
           else add_constraint_one_way (fst ij) (snd ij)
                  (fun x y => negb (String.eqb x y))) ps s
      = Return tt s' /\
      domains s' = domains s /\
      variables s' = variables s /\
      (forall k, Dict.mem k (constraints s') = Dict.mem k (constraints s)) /\
      (forall i j,
          stored s' i j
          = if touched ps i j
            then Some (filter differing (base_pairs s i j))
            else stored s i j).
Proof.
  induction ps as [|[i j] ps IH]; intros s Hvars.
  - exists s. simpl. repeat split; reflexivity.
  - assert (Hstep : exists s1,
               (if String.eqb i j then ret tt
                else add_constraint_one_way i j
                       (fun x y => negb (String.eqb x y))) s
               = Return tt s1 /\
               domains s1 = domains s /\
               variables s1 = variables s /\
               (forall k, Dict.mem k (constraints s1)
                          = Dict.mem k (constraints s)) /\
               (forall i0 j0,
                   stored s1 i0 j0
                   = if arc_eqb (i, j) (i0, j0) && negb (String.eqb i j)
                     then Some (filter differing (base_pairs s i0 j0))
                     else stored s i0 j0)).
    { destruct (String.eqb i j) eqn:Eij.
      - exists s. repeat split; try reflexivity.
        intros i0 j0. now rewrite andb_false_r.
      - destruct (Hvars (i, j) (or_introl eq_refl)) as [Hi Hj].
        destruct (add_constraint_one_way_run i j
                    (fun x y => negb (String.eqb x y)) s
                    (can_add_variables s i j Hi Hj))
          as [s1 [Hrun [Hd [Hv [Hst [Hfr Hk]]]]]].
        exists s1. repeat split; auto.
        intros i0 j0. rewrite andb_true_r.
        destruct (arc_eqb (i, j) (i0, j0)) eqn:E.
        + apply arc_eqb_eq in E. inversion E; subst. exact Hst.
        + apply Hfr. intros E'. rewrite <- E' in E.
          assert (arc_eqb (i, j) (i, j) = true) by now apply arc_eqb_eq.
          congruence. }
    destruct Hstep as [s1 [Hrun1 [Hd1 [Hv1 [Hk1 Hst1]]]]].
    destruct (IH s1) as [s' [Hrun [Hd [Hv [Hk Hst]]]]].
    { intros p Hp. destruct (Hvars p (or_intror Hp)) as [H1 H2].
      unfold is_variable in *. now rewrite !Hk1, Hd1. }
    exists s'. split.
    { simpl. unfold bind. simpl in Hrun1. rewrite Hrun1. exact Hrun. }
    split; [congruence|]. split; [congruence|].
    split; [intros k; now rewrite Hk, Hk1|].
    intros i0 j0. rewrite Hst. unfold touched at 2. simpl.
    fold (touched ps i0 j0). rewrite (Hst1 i0 j0).
    destruct (arc_eqb (i, j) (i0, j0) && negb (String.eqb i j)) eqn:E;
      simpl.
    + assert (Hb : base_pairs s1 i0 j0
                   = filter differing (base_pairs s i0 j0)).
      { unfold base_pairs at 1. now rewrite (Hst1 i0 j0), E. }
      rewrite Hb, filter_idem. now destruct (touched ps i0 j0).
    + rewrite (base_pairs_frame s s1 i0 j0 Hd1); [reflexivity|].
      now rewrite (Hst1 i0 j0), E.
Qed.

Lemma touched_product (vars : list name) (i j : name) :
  touched (get_all_possible_pairs vars vars) i j = true <->
  In i vars /\ In j vars /\ i <> j.
Proof.
  unfold touched, get_all_possible_pairs. rewrite existsb_exists. split.
  - intros [[a b] [Hin H]]. apply andb_true_iff in H. destruct H as [E Hne].
    apply arc_eqb_eq in E. inversion E; subst.
    apply in_prod_iff in Hin. simpl in Hne.
    apply negb_true_iff, String.eqb_neq in Hne. tauto.
  - intros [Hi [Hj Hne]]. exists (i, j). split.
    + apply in_prod_iff. auto.
    + apply andb_true_iff. split; [now apply arc_eqb_eq|].
      simpl. now apply negb_true_iff, String.eqb_neq.
Qed.

End AllDifferent.

(** X4 ([get_all_arcs]): on an object whose [self.constraints] has no
    repeated key, which is what a dictionary is, the list holds the pair
    [(i, j)] exactly when [j] is a key of [self.constraints[i]]. *)
Theorem get_all_arcs_registered (s : CSP)
    (Hdict : NoDup (Dict.keys (constraints s))) (i j : name) :
  In (i, j) (get_all_arcs s) <-> registered s i j = true.
Proof.
  unfold get_all_arcs, registered. rewrite in_flat_map. split.
  - intros [[i' ci] [Hin Hj]]. apply in_map_iff in Hj.
    destruct Hj as [[j' l] [E Hl]]. simpl in E. inversion E; subst.
    assert (Hg : Dict.get i (constraints s) = Some ci)
      by exact (in_get_nodup i ci _ Hdict Hin).
    rewrite Hg. apply DictFacts.mem_in_keys. apply in_map_iff. exists (j, l). auto.
  - destruct (Dict.get i (constraints s)) as [ci|] eqn:Hci; [|discriminate].
    intros Hm. apply DictFacts.mem_in_keys in Hm.
    apply in_map_iff in Hm. destruct Hm as [[j' l] [E Hl]]. simpl in E.
    subst j'. exists (i, ci). split; [now apply get_In|].
    apply in_map_iff. exists (j, l). auto.
Qed.

(** X4 on the one-arc graph. *)
Lemma get_all_arcs_registered_witness :
  NoDup (Dict.keys (constraints one_way_graph)) /\
  (In ("a", "b") (get_all_arcs one_way_graph) <->
   registered one_way_graph "a" "b" = true).
Proof.
  assert (H : NoDup (Dict.keys (constraints one_way_graph))).
  { repeat constructor; simpl; intuition discriminate. }
  split; [exact H|].
  exact (get_all_arcs_registered one_way_graph H "a" "b").
Defined.

(** X5 ([add_all_different_constraint]): on added variables the call
    returns and changes no domain; for two different names of the list the
    arc is stored afterwards, in both directions, as the pairs of
    different values of what was stored before or, for a new arc, of the
    product of the two domains; every other arc is as it was. *)
Theorem add_all_different_constraint_stores (vars : list name) (s : CSP)
    (Hvars : forall v, In v vars -> is_variable s v = true) :
  exists s',
    add_all_different_constraint vars s = Return tt s' /\
    domains s' = domains s /\
    (forall i j, In i vars -> In j vars -> i <> j ->
                 stored s' i j
                 = Some (filter differing (base_pairs s i j)) /\
                 stored s' j i
                 = Some (filter differing (base_pairs s j i))) /\
    (forall i j, ~ (In i vars /\ In j vars /\ i <> j) ->
                 stored s' i j = stored s i j).
Proof.
  destruct (for_each_differ (get_all_possible_pairs vars vars) s)
    as [s' [Hrun [Hd [_ [_ Hst]]]]].
  { intros [a b] Hin. apply in_prod_iff in Hin. simpl. split; apply Hvars; tauto. }
  exists s'. split; [exact Hrun|]. split; [exact Hd|]. split.
  - intros i j Hi Hj Hne. split; rewrite Hst.
    + assert (H : touched (get_all_possible_pairs vars vars) i j = true)
        by (apply touched_product; auto).
      now rewrite H.
    + assert (H : touched (get_all_possible_pairs vars vars) j i = true)
        by (apply touched_product; auto).
      now rewrite H.
  - intros i j Hno. rewrite Hst.
    destruct (touched (get_all_possible_pairs vars vars) i j) eqn:E; auto.
    apply touched_product in E. contradiction.
Qed.

(** X5 on two variables over [1, 2]. *)
Lemma add_all_different_constraint_stores_witness :
  exists s',
    add_all_different_constraint ["a"; "b"]
      (built (add_variable "a" ["1"; "2"] ;;; add_variable "b" ["1"; "2"]))
    = Return tt s' /\
    stored s' "a" "b" = Some [("1", "2"); ("2", "1")] /\
    stored s' "b" "a" = Some [("1", "2"); ("2", "1")].
Proof.
  destruct (add_all_different_constraint_stores ["a"; "b"]
              (built (add_variable "a" ["1"; "2"] ;;;
                      add_variable "b" ["1"; "2"])))
    as [s' [Hrun [_ [Hst _]]]].
  { intros v [<-|[<-|[]]]; reflexivity. }
  exists s'. split; [exact Hrun|].
  apply (Hst "a" "b"); simpl; auto. discriminate.
Defined.

(** ** Further properties: AC-3 *)

Section Pruning.

Lemma same_counters_refl (s : CSP) : same_counters s s.
Proof.
  repeat split.
Qed.

Lemma same_counters_trans (s1 s2 s3 : CSP) :
  same_counters s1 s2 -> same_counters s2 s3 -> same_counters s1 s3.
Proof.
  unfold same_counters. intuition congruence.
Qed.

Lemma prunes_refl (s : CSP) : prunes s s.
Proof.
  split; [reflexivity|]. split; [apply same_counters_refl|].
  induction (domains s); constructor; auto using incl_refl.
Qed.

Lemma prunes_trans (s1 s2 s3 : CSP) :
  prunes s1 s2 -> prunes s2 s3 -> prunes s1 s3.
Proof.
  intros [C12 [K12 D12]] [C23 [K23 D23]].
  split; [congruence|]. split; [eapply same_counters_trans; eauto|].
  revert D23. generalize (domains s3).
  induction D12 as [|p q r1 r2 [Hk Hl] _ IH]; intros d3 D23;
    inversion D23 as [|q' t r2' r3 [Hk' Hl'] Hr]; subst; constructor.
  - split; [congruence|]. eapply incl_tran; eauto.
  - now apply IH.
Qed.

Lemma prunes_set (d : Dict.t (list value)) (k : name) (l l' : list value) :
  Dict.get k d = Some l -> incl l' l ->
  Forall2 (fun p q => fst q = fst p /\ incl (snd q) (snd p))
          d (Dict.set k l' d).
Proof.
  induction d as [|[k0 l0] r IH]; simpl; [discriminate|].
  destruct (String.eqb k k0) eqn:E; intros Hg Hl.
  - inversion Hg; subst. apply String.eqb_eq in E. subst.
    constructor; [simpl; auto|].
    clear. induction r; constructor; auto using incl_refl.
  - constructor; [simpl; auto using incl_refl | now apply IH].
Qed.

Lemma prunes_domain (s s' : CSP) (k : name) :
  prunes s s' -> incl (domain_of s' k) (domain_of s k).
Proof.
  intros [_ [_ D]]. unfold domain_of.
  induction D as [|[k1 l1] [k2 l2] r r' [Hk Hl] _ IH]; simpl in *.
  - apply incl_refl.
  - subst k2. now destruct (String.eqb k k1).
Qed.

Lemma prunes_keys (s s' : CSP) :
  prunes s s' -> Dict.keys (domains s') = Dict.keys (domains s).
Proof.
  intros [_ [_ D]]. unfold Dict.keys.
  induction D as [|p q r r' [Hk _] _ IH]; simpl; congruence.
Qed.

Lemma delete_while_enumerating_incl (x : value) (l : list value) :
  incl (delete_while_enumerating x l) l.
Proof.
  assert (H : forall n l, length l <= n ->
                          incl (delete_while_enumerating x l) l).
  { induction n as [|n IH]; intros [|d r] Hle; simpl in *;
      try apply incl_refl; try lia.
    destruct (String.eqb d x).
    - destruct r as [|d' r']; [apply incl_nil_l|].
      apply incl_tl. apply incl_cons; [now left|].
      apply incl_tl. apply IH. simpl in Hle. lia.
    - apply incl_cons; [now left|]. apply incl_tl. apply IH. lia. }
  now apply (H (length l)).
Qed.

Lemma delete_while_enumerating_keeps (x y : value) (l : list value) :
  In y l -> y <> x -> In y (delete_while_enumerating x l).
Proof.
  assert (H : forall n l, length l <= n -> In y l -> y <> x ->
                          In y (delete_while_enumerating x l)).
  { induction n as [|n IH]; intros [|d r] Hle Hin Hne; simpl in *;
      try contradiction; try lia.
    destruct (String.eqb d x) eqn:E.
    - apply String.eqb_eq in E. subst d.
      destruct Hin as [->|Hin]; [contradiction|].
      destruct r as [|d' r']; [contradiction|].
      destruct Hin as [->|Hin]; [now left|].
      right. apply IH; auto. simpl in Hle. lia.
    - destruct Hin as [->|Hin]; [now left|].
      right. apply IH; auto. lia. }
  now apply (H (length l)).
Qed.

Lemma prunes_delete (s : CSP) (i : name) (di : list value) (x : value) :
  Dict.get i (domains s) = Some di ->
  prunes s (with_domains
              (Dict.set i (delete_while_enumerating x di) (domains s)) s).
Proof.
  intros Hg. split; [reflexivity|]. split; [repeat split|].
  simpl. eapply prunes_set; eauto. apply delete_while_enumerating_incl.
Qed.

Lemma found_support_value (i j : name) (x : value) (s s' : CSP) (b : bool) :
  found_support i j x s = Return b s' -> s' = s /\ b = has_support s i j x.
Proof.
  unfold found_support, has_support, stored.
  destruct (Dict.get j (domains s)) as [[|y dj]|]; try discriminate.
  - intros E. assert (Hs : s' = s) by congruence.
    assert (Hb : b = false) by congruence. subst s' b. split; auto.
    destruct (Dict.get i (constraints s)) as [ci|]; auto.
    now destruct (Dict.get j ci).
  - destruct (Dict.get i (constraints s)) as [ci|]; try discriminate.
    destruct (Dict.get j ci) as [cij|]; try discriminate.
    intros E. assert (Hs : s' = s) by congruence. subst s'.
    split; [reflexivity | congruence].
Qed.

Lemma found_support_true (i j : name) (x : value) (s : CSP) :
  has_support s i j x = true -> found_support i j x s = Return true s.
Proof.
  unfold found_support, has_support, stored.
  destruct (Dict.get j (domains s)) as [[|y dj]|]; try discriminate.
  - destruct (Dict.get i (constraints s)) as [ci|]; try discriminate.
    destruct (Dict.get j ci); discriminate.
  - destruct (Dict.get i (constraints s)) as [ci|]; try discriminate.
    destruct (Dict.get j ci) as [cij|]; try discriminate.
    now intros ->.
Qed.

Lemma revise_loop_prunes (i j : name) (fuel : nat) :
  forall (idx : nat) (rev : bool) (s : CSP) (r : bool) (s' : CSP),
    revise_loop fuel idx i j rev s = Return r s' ->
    prunes s s' /\ (rev = true -> r = true).
Proof.
  induction fuel as [|fuel IH]; intros idx rev s r s'; simpl;
    destruct (Dict.get i (domains s)) as [di|] eqn:Hg; try discriminate;
    destruct (nth_error di idx) as [x|] eqn:Hn; try discriminate;
    try (intros E; inversion E; subst; split; [apply prunes_refl | auto]).
  unfold bind at 1.
  destruct (found_support i j x s) as [found s1| |] eqn:Hf; try discriminate.
  apply found_support_value in Hf. destruct Hf as [-> _].
  destruct found; [apply IH|].
  unfold bind at 1. intros Hrun. apply IH in Hrun.
  destruct Hrun as [Hp Hr]. split; [|intros _; now apply Hr].
  eapply prunes_trans; [|exact Hp]. now apply prunes_delete.
Qed.

Lemma revise_prunes (a : Assignment) (i j : name) (s s' : CSP) (r : bool) :
  revise a i j s = Return r s' -> prunes s s'.
Proof.
  unfold revise. destruct (Dict.get i (domains s)); [|discriminate].
  intros H. now apply revise_loop_prunes in H.
Qed.

Lemma inference_loop_prunes (fuel : nat) :
  forall (a : Assignment) (queue : list (name * name)) (s s' : CSP)
         (r : bool),
    inference_loop fuel a queue s = Return r s' ->
    prunes s s' /\
    (r = false -> exists i, Dict.get i (domains s') = Some []).
Proof.
  induction fuel as [|fuel IH]; intros a [|[i j] queue] s s' r; simpl;
    try discriminate;
    try (intros E; inversion E; subst; split;
         [apply prunes_refl | discriminate]).
  unfold bind at 1.
  destruct (revise a i j s) as [revised s1| |] eqn:Hrev; try discriminate.
  apply revise_prunes in Hrev.
  destruct revised.
  - destruct (Dict.get i (domains s1)) as [[|x di]|] eqn:Hg; try discriminate.
    + intros E. inversion E; subst. split; [assumption|]. eauto.
    + unfold get_all_neighboring_arcs, bind at 1 2, subscript, ret.
      destruct (Dict.get i (constraints s1)); [|discriminate].
      intros Hrun. apply IH in Hrun. destruct Hrun as [Hp Hr].
      split; [eapply prunes_trans; eauto | exact Hr].
  - intros Hrun. apply IH in Hrun. destruct Hrun as [Hp Hr].
    split; [eapply prunes_trans; eauto | exact Hr].
Qed.

Lemma skipn_nth_error {A : Type} (l : list A) (n : nat) (x : A) :
  nth_error l n = Some x -> skipn n l = x :: skipn (S n) l.
Proof.
  revert l. induction n as [|n IH]; intros [|y r]; simpl; try discriminate.
  - intros E. now inversion E.
  - intros H. now apply IH.
Qed.

Lemma has_support_frame (s s' : CSP) (i j : name) (x : value) :
  constraints s' = constraints s ->
  Dict.get j (domains s') = Dict.get j (domains s) ->
  has_support s' i j x = has_support s i j x.
Proof.
  intros C D. unfold has_support, stored. now rewrite C, D.
Qed.

(** The loop of [revise] on an arc between two different variables. *)
Lemma revise_loop_sound (i j : name) (Hij : i <> j) (fuel : nat) :
  forall (idx : nat) (rev : bool) (s : CSP) (r : bool) (s' : CSP),
    revise_loop fuel idx i j rev s = Return r s' ->
    (forall k, k <> i -> Dict.get k (domains s') = Dict.get k (domains s)) /\
    (forall x, In x (domain_of s i) -> ~ In x (domain_of s' i) ->
               has_support s i j x = false) /\
    r = rev || negb (forallb (has_support s i j) (skipn idx (domain_of s i))) /\
    (r = rev -> s' = s \/ rev = true).
Proof.
  induction fuel as [|fuel IH]; intros idx rev s r s'; simpl;
    unfold domain_of at 1 3;
    destruct (Dict.get i (domains s)) as [di|] eqn:Hg; try discriminate;
    destruct (nth_error di idx) as [x|] eqn:Hn; try discriminate;
    try (intros E; inversion E; subst; unfold domain_of; rewrite Hg;
         split; [auto|]; split; [intros; contradiction|]; split; [|auto];
         apply nth_error_None in Hn; rewrite skipn_all2 by lia;
         simpl; now rewrite orb_false_r).
  unfold bind at 1.
  destruct (found_support i j x s) as [found s1| |] eqn:Hf; try discriminate.
  apply found_support_value in Hf. destruct Hf as [-> Hfound].
  rewrite (skipn_nth_error di idx x Hn). simpl.
  destruct found.
  - intros Hrun. apply IH in Hrun. unfold domain_of in Hrun at 1 3.
    rewrite Hg in Hrun. destruct Hrun as [H1 [H2 [H3 H4]]].
    rewrite <- Hfound. simpl. auto.
  - unfold bind at 1. intros Hrun.
    set (s1 := with_domains _ s) in Hrun.
    pose proof (revise_loop_prunes i j fuel _ _ _ _ _ Hrun) as [_ Hr].
    specialize (Hr eq_refl). subst r.
    apply IH in Hrun. destruct Hrun as [H1 [H2 _]].
    assert (Hj : Dict.get j (domains s1) = Dict.get j (domains s)).
    { simpl. apply DictFacts.get_set_other. congruence. }
    split; [|split; [|split]].
    + intros k Hk. rewrite (H1 k Hk). simpl.
      now apply DictFacts.get_set_other.
    + intros y Hy Hny.
      destruct (String.eqb y x) eqn:E.
      * apply String.eqb_eq in E. subst y. now rewrite <- Hfound.
      * apply String.eqb_neq in E.
        rewrite <- (has_support_frame s s1 i j y eq_refl Hj).
        apply H2; auto. unfold domain_of. simpl.
        rewrite DictFacts.get_set_same.
        now apply delete_while_enumerating_keeps.
    + rewrite <- Hfound. simpl. now rewrite orb_true_r.
    + intros <-. now right.
Qed.

End Pruning.

Section Consistency.

Lemma revise_loop_consistent (i j : name) (fuel : nat) :
  forall (idx : nat) (rev : bool) (s : CSP) (di : list value),
    Dict.get i (domains s) = Some di ->
    forallb (has_support s i j) (skipn idx di) = true ->
    length di <= fuel + idx ->
    revise_loop fuel idx i j rev s = Return rev s.
Proof.
  induction fuel as [|fuel IH]; intros idx rev s di Hg Hall Hlen; simpl;
    rewrite Hg; destruct (nth_error di idx) as [x|] eqn:Hn; auto.
  - assert (idx < length di) by (apply nth_error_Some; congruence). lia.
  - rewrite (skipn_nth_error di idx x Hn) in Hall. simpl in Hall.
    apply andb_true_iff in Hall. destruct Hall as [Hx Hrest].
    unfold bind. rewrite (found_support_true i j x s Hx).
    apply (IH (S idx) rev s di); auto. lia.
Qed.

Lemma revise_consistent (a : Assignment) (i j : name) (s : CSP) :
  arc_consistent s i j = true -> revise a i j s = Return false s.
Proof.
  unfold arc_consistent, revise.
  destruct (Dict.get i (domains s)) as [di|] eqn:Hg; [|discriminate].
  intros Hall. apply (revise_loop_consistent i j _ 0 false s di); auto.
  lia.
Qed.

Lemma inference_loop_consistent (fuel : nat) :
  forall (a : Assignment) (queue : list (name * name)) (s : CSP),
    length queue <= fuel ->
    (forall p, In p queue -> arc_consistent s (fst p) (snd p) = true) ->
    inference_loop fuel a queue s = Return true s.
Proof.
  induction fuel as [|fuel IH]; intros a [|[i j] queue] s Hlen Hall; simpl;
    auto; simpl in Hlen; try lia.
  unfold bind.
  rewrite (revise_consistent a i j s (Hall (i, j) (or_introl eq_refl))).
  apply IH; [lia|]. intros p Hp. apply Hall. now right.
Qed.

End Consistency.

(** X6 ([revise], consistent arc): when every value of the stored domain
    of [i] has a partner in the stored domain of [j], [revise] returns
    [False] and changes nothing, whatever assignment it is given. *)
Theorem revise_consistent_noop (a : Assignment) (i j : name) (s : CSP)
    (Hcons : arc_consistent s i j = true) :
  revise a i j s = Return false s.
Proof.
  now apply revise_consistent.
Qed.

(** X6 on the graph with [a <> b] over [1, 2]. *)
Lemma revise_consistent_noop_witness :
  arc_consistent two_way_graph "a" "b" = true /\
  revise [] "a" "b" two_way_graph = Return false two_way_graph.
Proof.
  split; [reflexivity|].
  exact (revise_consistent_noop [] "a" "b" two_way_graph eq_refl).
Defined.

(** X7 ([revise], what it removes): on an arc between two different
    variables, a call that returns leaves the constraints, the counters
    and every other domain as they were; the stored domain of [i] keeps
    only values it had; every value it lost had no partner in the stored
    domain of [j]; and the result is [True] exactly when some value of the
    domain had no partner, [False] meaning that nothing changed. *)
Theorem revise_removes_only_unsupported
    (a : Assignment) (i j : name) (s s' : CSP) (r : bool)
    (Hij : i <> j) (Hrun : revise a i j s = Return r s') :
  constraints s' = constraints s /\
  same_counters s s' /\
  (forall k, k <> i -> Dict.get k (domains s') = Dict.get k (domains s)) /\
  incl (domain_of s' i) (domain_of s i) /\
  (forall x, In x (domain_of s i) -> ~ In x (domain_of s' i) ->
             has_support s i j x = false) /\
  r = negb (arc_consistent s i j) /\
  (r = false -> s' = s).
Proof.
  pose proof (revise_prunes a i j s s' r Hrun) as Hp.
  unfold revise in Hrun. unfold arc_consistent.
  destruct (Dict.get i (domains s)) as [di|] eqn:Hg; [|discriminate].
  destruct (revise_loop_sound i j Hij _ _ _ _ _ _ Hrun)
    as [H1 [H2 [H3 H4]]].
  unfold domain_of in H3 at 1. rewrite Hg in H3. simpl in H3.
  split; [apply Hp|]. split; [apply Hp|]. split; [exact H1|].
  split; [now apply prunes_domain|]. split; [exact H2|].
  split; [exact H3|].
  intros Hr. destruct (H4 Hr) as [E|E]; [exact E | discriminate].
Qed.

(** X7 on the graph that wants [a = 1]. *)
Lemma revise_removes_only_unsupported_witness :
  "a" <> "b" /\
  revise [] "a" "b" must_be_one_graph
  = Return true
      (with_domains [("a", ["4"; "1"]); ("b", ["2"])] must_be_one_graph) /\
  has_support must_be_one_graph "a" "b" "3" = false /\
  true = negb (arc_consistent must_be_one_graph "a" "b").
Proof.
  assert (Hne : "a" <> "b") by discriminate.
  assert (Hrun : revise [] "a" "b" must_be_one_graph
                 = Return true
                     (with_domains [("a", ["4"; "1"]); ("b", ["2"])]
                                   must_be_one_graph)) by reflexivity.
  destruct (revise_removes_only_unsupported [] "a" "b" must_be_one_graph
              _ true Hne Hrun) as [_ [_ [_ [_ [Hlost [Hr _]]]]]].
  split; [exact Hne|]. split; [exact Hrun|]. split; [|exact Hr].
  apply Hlost.
  - simpl. auto.
  - simpl. intros [H|[H|[]]]; discriminate.
Defined.

Lemma shrinks_domain_length (s s' : CSP) (k : name) :
  shrinks s s' -> length (domain_of s' k) <= length (domain_of s k).
Proof.
  intros [_ D]. unfold domain_of.
  induction D as [|[k1 l1] [k2 l2] r r' [Hk Hl] _ IH]; simpl in *; auto.
  subst k2. now destruct (String.eqb k k1).
Qed.

(** X8 ([inference], what it may change): a propagation that returns
    leaves the constraints, the variable list and the counters as they
    were, keeps the keys of [self.domains], and every stored domain holds
    only values it held before and is no longer than before: it never
    adds a value. *)
Theorem inference_only_prunes
    (a : Assignment) (queue : list (name * name)) (s s' : CSP) (r : bool)
    (Hrun : inference a queue s = Return r s') :
  constraints s' = constraints s /\
  same_counters s s' /\
  Dict.keys (domains s') = Dict.keys (domains s) /\
  (forall k, incl (domain_of s' k) (domain_of s k)) /\
  (forall k, length (domain_of s' k) <= length (domain_of s k)).
Proof.
  pose proof (inference_post a queue s) as Hsh. rewrite Hrun in Hsh.
  simpl in Hsh.
  unfold inference in Hrun. apply inference_loop_prunes in Hrun.
  destruct Hrun as [Hp _].
  split; [apply Hp|]. split; [apply Hp|].
  split; [now apply prunes_keys|].
  split; [intros k; now apply prunes_domain|].
  intros k. now apply shrinks_domain_length.
Qed.

(** X8 on the graph that wants [a = 1]. *)
Lemma inference_only_prunes_witness :
  exists s',
    propagate_all must_be_one_graph = Return true s' /\
    constraints s' = constraints must_be_one_graph /\
    Dict.keys (domains s') = Dict.keys (domains must_be_one_graph) /\
    incl (domain_of s' "a") (domain_of must_be_one_graph "a").
Proof.
  assert (Hrun : propagate_all must_be_one_graph
                 = Return true
                     (with_domains [("a", ["4"; "1"]); ("b", ["2"])]
                                   must_be_one_graph)) by reflexivity.
  eexists. split; [exact Hrun|].
  destruct (inference_only_prunes _ _ _ _ _ Hrun) as [C [_ [K [I _]]]].
  split; [exact C|]. split; [exact K|]. exact (I "a").
Defined.

(** X9 ([inference], failure): a propagation returns [False] only after
    emptying a stored domain: some variable has the empty list in
    [self.domains] afterwards. *)
Theorem inference_false_empties
    (a : Assignment) (queue : list (name * name)) (s s' : CSP)
    (Hrun : inference a queue s = Return false s') :
  exists i, Dict.get i (domains s') = Some [].
Proof.
  unfold inference in Hrun. apply inference_loop_prunes in Hrun.
  destruct Hrun as [_ H]. now apply H.
Qed.

(** X9 on the pigeonhole graph. *)
Lemma inference_false_empties_witness :
  exists s',
    propagate_all pigeonhole_graph = Return false s' /\
    exists i, Dict.get i (domains s') = Some [].
Proof.
  assert (Hrun : propagate_all pigeonhole_graph
                 = Return false
                     (with_domains [("a", []); ("b", ["1"])] pigeonhole_graph))
    by reflexivity.
  eexists. split; [exact Hrun|].
  exact (inference_false_empties _ _ _ _ Hrun).
Defined.

(** X10 ([inference], fixpoint): when every arc of the queue is already
    consistent on the stored domains, the propagation returns [True] and
    changes nothing. *)
Theorem inference_consistent_noop
    (a : Assignment) (queue : list (name * name)) (s : CSP)
    (Hcons : forall p, In p queue ->
                       arc_consistent s (fst p) (snd p) = true) :
  inference a queue s = Return true s.
Proof.
  unfold inference. apply inference_loop_consistent; auto.
  unfold inference_fuel. lia.
Qed.

(** X10 on the graph with [a <> b] over [1, 2]. *)
Lemma inference_consistent_noop_witness :
  (forall p, In p (get_all_arcs two_way_graph) ->
             arc_consistent two_way_graph (fst p) (snd p) = true) /\
  propagate_all two_way_graph = Return true two_way_graph.
Proof.
  assert (H : forall p, In p (get_all_arcs two_way_graph) ->
                        arc_consistent two_way_graph (fst p) (snd p) = true).
  { intros p [<-|[<-|[]]]; reflexivity. }
  split; [exact H|].
  exact (inference_consistent_noop (domains two_way_graph)
           (get_all_arcs two_way_graph) two_way_graph H).
Defined.

(** ** Further properties: the search *)

Section SearchFrame.

Variable rnd : nat -> nat.

Lemma finished_no_unassigned (a : Assignment) :
  finished a = true -> unassigned a = [].
Proof.
  unfold finished, unassigned.
  induction (Dict.keys a) as [|k r IH]; simpl; auto.
  destruct (undecided a k); simpl; [discriminate|]. exact IH.
Qed.

Lemma search_frame_refl (s : CSP) : search_frame s s.
Proof.
  repeat split; auto using incl_refl.
Qed.

Lemma search_frame_trans (s1 s2 s3 : CSP) :
  search_frame s1 s2 -> search_frame s2 s3 -> search_frame s1 s3.
Proof.
  intros [C12 [V12 [K12 D12]]] [C23 [V23 [K23 D23]]].
  repeat split; try congruence.
  intros k. eapply incl_tran; eauto.
Qed.

Lemma prunes_search_frame (s s' : CSP) : prunes s s' -> search_frame s s'.
Proof.
  intros Hp. split; [apply Hp|]. split; [apply Hp|].
  split; [now apply prunes_keys|]. intros k. now apply prunes_domain.
Qed.

Lemma search_frame_fields (s s' : CSP) :
  constraints s' = constraints s -> variables s' = variables s ->
  domains s' = domains s -> search_frame s s'.
Proof.
  intros C V D. unfold search_frame, domain_of. rewrite C, V, D.
  repeat split; auto using incl_refl.
Qed.

Lemma chosen_weaken (a : Assignment) (s s1 : CSP) (r : result) :
  search_frame s s1 -> chosen a s1 r -> chosen a s r.
Proof.
  intros [_ [_ [_ D]]]. destruct r as [|a']; simpl; auto.
  intros H k. destruct (H k) as [E|[v [E Hv]]]; auto.
  right. exists v. split; auto. now apply D.
Qed.

Lemma inference_frame (a : Assignment) (queue : list (name * name))
    (s s' : CSP) (r : bool) :
  inference a queue s = Return r s' -> prunes s s'.
Proof.
  unfold inference. intros H. now apply inference_loop_prunes in H.
Qed.

Lemma for_values_frame (rec : Assignment -> M result)
    (Hrec : forall a s r s',
        rec a s = Return r s' ->
        search_frame s s' /\ counts r s s' /\ chosen a s r)
    (var : name) (a0 : Assignment) (fuel : nat) :
  forall (idx : nat) (a : Assignment) (s : CSP) (r : result) (s' : CSP),
    (forall v, Dict.set var [v] a = Dict.set var [v] a0) ->
    for_values rec fuel idx var a s = Return r s' ->
    search_frame s s' /\ loop_counts r s s' /\ chosen a0 s r.
Proof.
  induction fuel as [|fuel IH]; intros idx a s r s' Ha; simpl;
    destruct (Dict.get var (domains s)) as [dv|] eqn:Hg; try discriminate;
    destruct (nth_error dv idx) as [v|] eqn:Hn; try discriminate;
    try (intros E; inversion E; subst; simpl;
         split; [now apply search_frame_fields|];
         split; [unfold loop_counts; simpl; lia | exact I]).
  assert (Hv : In v (domain_of s var)).
  { unfold domain_of. rewrite Hg. eapply nth_error_In; eauto. }
  assert (Hnext : forall s1 r s',
            search_frame s s1 ->
            backtrack_called s <= backtrack_called s1 ->
            backtrack_failed s <= backtrack_failed s1 ->
            random_draws s <= random_draws s1 ->
            random_draws s1 + backtrack_called s
            <= backtrack_called s1 + random_draws s ->
            backtrack_failed s1 + backtrack_called s
            = backtrack_called s1 + backtrack_failed s ->
            (avar <- subscript var a ;;
             for_values rec fuel (S idx) var
               (Dict.set var (delete_first v avar) a)) s1 = Return r s' ->
            search_frame s s' /\ loop_counts r s s' /\ chosen a0 s r).
  { intros s1 r1 s1' Hf Hc Hfl Hd Hdc Heq. unfold bind, subscript.
    destruct (Dict.get var a) as [avar|]; [|discriminate].
    unfold ret. intros Hrun. apply IH in Hrun.
    - destruct Hrun as [Hf' [Hl Hch]].
      split; [eapply search_frame_trans; eauto|].
      split; [|eapply chosen_weaken; eauto].
      unfold loop_counts in *. destruct r1; lia.
    - intros v'. rewrite DictFacts.set_set. apply Ha. }
  unfold bind at 1.
  destruct (inference (Dict.set var [v] a) (get_all_arcs s) s)
    as [ok s1| |] eqn:Hinf; try discriminate.
  apply inference_frame in Hinf.
  pose proof (prunes_search_frame _ _ Hinf) as Hf1.
  destruct Hinf as [_ [[_ [Hc1 [Hfl1 Hd1]]] _]].
  destruct ok; [|apply Hnext; auto; lia].
  unfold bind at 1.
  destruct (rec (Dict.set var [v] a) s1) as [r1 s2| |] eqn:Hr;
    try discriminate.
  apply Hrec in Hr. destruct Hr as [Hf2 [Hcnt Hch]].
  assert (Hf02 : search_frame s s2) by (eapply search_frame_trans; eauto).
  unfold counts in Hcnt.
  destruct r1 as [|a'].
  - apply Hnext; auto; lia.
  - unfold ret. intros E. inversion E; subst. split; [exact Hf02|].
    split; [unfold loop_counts; lia|].
    simpl. intros k. simpl in Hch. rewrite Ha in Hch.
    destruct (Hch k) as [Ek|[v' [Ek Hv']]].
    + destruct (String.eqb k var) eqn:Ekv.
      * apply String.eqb_eq in Ekv. subst k.
        rewrite DictFacts.get_set_same in Ek. right. exists v. auto.
      * apply String.eqb_neq in Ekv.
        rewrite DictFacts.get_set_other in Ek by assumption. now left.
    + right. exists v'. split; auto.
      destruct Hf1 as [_ [_ [_ D]]]. now apply D.
Qed.

Lemma backtrack_frame (fuel : nat) :
  forall (a : Assignment) (s : CSP) (r : result) (s' : CSP),
    backtrack rnd fuel a s = Return r s' ->
    search_frame s s' /\ counts r s s' /\ chosen a s r.
Proof.
  induction fuel as [|fuel IH]; intros a s r s'; [discriminate|].
  simpl. unfold bind at 1. unfold incr_called at 1.
  set (s0 := mkCSP _ _ _ _ _ _).
  destruct (finished a) eqn:Hfin.
  - intros E. inversion E; subst.
    split; [now apply search_frame_fields|].
    split; [unfold counts; simpl; lia|]. simpl. auto.
  - unfold bind at 1, debug_print.
    destruct (forallb _ grid_keys); [|discriminate].
    unfold ret at 1. unfold bind at 1.
    unfold select_unassigned_variable, random_choice.
    destruct (nth_error (unassigned a) _) as [var|]; [|discriminate].
    set (s1 := mkCSP _ _ _ _ _ _).
    unfold bind at 1, subscript.
    destruct (Dict.get var (domains s1)) as [dv|]; [|discriminate].
    unfold ret at 1. intros Hrun.
    apply (for_values_frame (backtrack rnd fuel) IH var a) in Hrun; auto.
    destruct Hrun as [Hf [Hl Hch]].
    assert (Hf1 : search_frame s s1) by now apply search_frame_fields.
    split; [eapply search_frame_trans; eauto|].
    split; [|eapply chosen_weaken; eauto].
    unfold loop_counts in Hl. unfold counts. simpl in Hl.
    destruct r; lia.
Qed.

Lemma backtracking_search_frame (s : CSP) (r : result) (s' : CSP) :
  backtracking_search rnd s = Return r s' ->
  search_frame s s' /\ counts r s s' /\ chosen (domains s) s r.
Proof.
  unfold backtracking_search, bind.
  destruct (inference (domains s) (get_all_arcs s) s) as [ok s1| |] eqn:Hinf;
    try discriminate.
  apply inference_frame in Hinf.
  pose proof (prunes_search_frame _ _ Hinf) as Hf1.
  destruct Hinf as [_ [[_ [Hc1 [Hfl1 Hd1]]] _]].
  intros Hrun. apply backtrack_frame in Hrun.
  destruct Hrun as [Hf [Hcnt Hch]].
  split; [eapply search_frame_trans; eauto|].
  split; [|eapply chosen_weaken; eauto].
  unfold counts in *. destruct r; lia.
Qed.

End SearchFrame.

(** X11 ([select_unassigned_variable], nothing to select): on an
    assignment in which no variable has more than one value the list of
    candidates is empty and [random.choice] raises [IndexError], after
    one draw. *)
Theorem select_unassigned_variable_index_error
    (rnd : nat -> nat) (a : Assignment) (s : CSP)
    (Hfin : finished a = true) :
  exists s',
    select_unassigned_variable rnd a s = Raise IndexError s' /\
    random_draws s' = S (random_draws s) /\
    domains s' = domains s.
Proof.
  unfold select_unassigned_variable, random_choice.
  rewrite (finished_no_unassigned a Hfin).
  destruct (rnd (random_draws s) mod length (@nil name)); simpl;
    eexists; repeat split.
Qed.

(** X11 on a decided assignment. *)
Lemma select_unassigned_variable_index_error_witness :
  exists s',
    select_unassigned_variable (fun n => n) [("a", ["1"]); ("b", [])]
      two_way_graph = Raise IndexError s' /\
    random_draws s' = S (random_draws two_way_graph) /\
    domains s' = domains two_way_graph.
Proof.
  exact (select_unassigned_variable_index_error (fun n => n)
           [("a", ["1"]); ("b", [])] two_way_graph eq_refl).
Defined.

(** X12 ([backtracking_search], graphs that are not the grid): on a graph
    that respects the builder contract, has an undecided variable and
    lacks one of the 81 cells read by [debug_print], the entry point
    raises [KeyError] in its first call of [backtrack], before any
    variable is selected. *)
Theorem backtracking_search_off_grid (rnd : nat -> nat) (s : CSP)
    (Hwf : well_formed s = true)
    (Hopen : finished (domains s) = false)
    (Hgrid : on_grid s = false) :
  exists s',
    backtracking_search rnd s = Raise KeyError s' /\
    backtrack_called s' = S (backtrack_called s) /\
    backtrack_failed s' = backtrack_failed s /\
    random_draws s' = random_draws s.
Proof.
  apply well_formed_arcs_ok in Hwf.
  pose proof (inference_no_raise (domains s) s Hwf) as Hsafe.
  pose proof (inference_post (domains s) (get_all_arcs s) s) as Hpost.
  unfold backtracking_search, bind.
  destruct (inference (domains s) (get_all_arcs s) s) as [ok s1| |] eqn:Hinf;
    try discriminate; try contradiction.
  apply inference_frame in Hinf.
  destruct Hinf as [_ [[_ [Hc [Hf Hd]]] _]].
  unfold backtrack_fuel. simpl. unfold bind, incr_called.
  rewrite Hopen. unfold debug_print. unfold on_grid in Hgrid.
  rewrite Hgrid. unfold raise. eexists. split; [reflexivity|].
  simpl. auto.
Qed.

(** X12 on the map-colouring graph of the source. *)
Lemma backtracking_search_off_grid_witness :
  well_formed map_coloring = true /\
  finished (domains map_coloring) = false /\
  on_grid map_coloring = false /\
  exists s',
    backtracking_search (fun n => n) map_coloring = Raise KeyError s' /\
    backtrack_called s' = 1.
Proof.
  split; [vm_compute; reflexivity|].
  split; [vm_compute; reflexivity|].
  split; [vm_compute; reflexivity|].
  destruct (backtracking_search_off_grid (fun n => n) map_coloring)
    as [s' [Hrun [Hc _]]]; try (vm_compute; reflexivity).
  exists s'. split; [exact Hrun|]. exact Hc.
Defined.

(** X13 ([backtracking_search], counters): when the entry point returns,
    [backtrack_called] has gone up by at least one and neither counter
    has gone down; it has gone up by exactly as much as
    [backtrack_failed] when the result is [False], and by more when the
    result is an assignment; at most one random draw was made per call
    of [backtrack]. *)
Theorem backtracking_search_counters
    (rnd : nat -> nat) (s s' : CSP) (r : result)
    (Hrun : backtracking_search rnd s = Return r s') :
  counts r s s'.
Proof.
  now apply backtracking_search_frame in Hrun.
Qed.

(** X13 on the clashing grid, where the only call fails. *)
Lemma backtracking_search_counters_witness :
  exists s',
    backtracking_search (fun n => n) clashing_grid = Return PyFalse s' /\
    counts PyFalse clashing_grid s'.
Proof.
  assert (H : exists s', backtracking_search (fun n => n) clashing_grid
                         = Return PyFalse s')
    by (eexists; vm_compute; reflexivity).
  destruct H as [s' Hrun]. exists s'. split; [exact Hrun|].
  exact (backtracking_search_counters _ _ _ _ Hrun).
Defined.

(** X14 ([backtracking_search], what it touches and what it picks): when
    the entry point returns, the constraints, the variable list and the
    keys of [self.domains] are as before and no stored domain has gained
    a value; and in a returned assignment every variable has either the
    list registered for it or a single value taken from its registered
    domain. *)
Theorem backtracking_search_picks_domain_values
    (rnd : nat -> nat) (s s' : CSP) (r : result)
    (Hrun : backtracking_search rnd s = Return r s') :
  search_frame s s' /\ chosen (domains s) s r.
Proof.
  apply backtracking_search_frame in Hrun. tauto.
Qed.

(** X14 on the grid without constraints, where the first cell is set. *)
Lemma backtracking_search_picks_domain_values_witness :
  exists a s',
    backtracking_search (fun n => n) free_grid = Return (PyDict a) s' /\
    Dict.get "0-0" a = Some ["1"] /\
    search_frame free_grid s' /\
    chosen (domains free_grid) free_grid (PyDict a).
Proof.
  assert (H : exists a s', backtracking_search (fun n => n) free_grid
                           = Return (PyDict a) s' /\
                           Dict.get "0-0" a = Some ["1"]).
  { eexists. eexists. split; vm_compute; reflexivity. }
  destruct H as [a [s' [Hrun Ha]]]. exists a, s'.
  split; [exact Hrun|]. split; [exact Ha|].
  exact (backtracking_search_picks_domain_values _ _ _ _ Hrun).
Defined.

(** X15 ([backtracking_search], nothing to decide): on a graph that
    respects the builder contract and whose registered domains all have
    at most one value, the entry point returns the registered domains as
    the assignment after a single call of [backtrack], whatever the
    propagation found. *)
Theorem backtracking_search_decided (rnd : nat -> nat) (s : CSP)
    (Hwf : well_formed s = true)
    (Hfin : finished (domains s) = true) :
  exists s',
    backtracking_search rnd s = Return (PyDict (domains s)) s' /\
    backtrack_called s' = S (backtrack_called s) /\
    backtrack_failed s' = backtrack_failed s /\
    random_draws s' = random_draws s.
Proof.
  apply well_formed_arcs_ok in Hwf.
  pose proof (inference_no_raise (domains s) s Hwf) as Hsafe.
  pose proof (inference_post (domains s) (get_all_arcs s) s) as Hpost.
  unfold backtracking_search, bind.
  destruct (inference (domains s) (get_all_arcs s) s) as [ok s1| |] eqn:Hinf;
    try discriminate; try contradiction.
  apply inference_frame in Hinf.
  destruct Hinf as [_ [[_ [Hc [Hf Hd]]] _]].
  unfold backtrack_fuel. simpl. unfold bind, incr_called.
  rewrite Hfin. unfold ret. eexists. split; [reflexivity|].
  simpl. auto.
Qed.

(** X15 on the pigeonhole graph, which has no solution. *)
Lemma backtracking_search_decided_witness :
  well_formed pigeonhole_graph = true /\
  finished (domains pigeonhole_graph) = true /\
  exists s',
    backtracking_search (fun n => n) pigeonhole_graph
    = Return (PyDict [("a", ["1"]); ("b", ["1"])]) s' /\
    backtrack_called s' = 1.
Proof.
  split; [reflexivity|]. split; [reflexivity|].
  destruct (backtracking_search_decided (fun n => n) pigeonhole_graph
              eq_refl eq_refl) as [s' [Hrun [Hc _]]].
  exists s'. split; [exact Hrun | exact Hc].
Defined.

(** ** Further properties: the Sudoku builder *)

Section Shape.

Lemma mem_existsb {V : Type} (k : name) (d : Dict.t V) :
  Dict.mem k d = existsb (String.eqb k) (Dict.keys d).
Proof.
  unfold Dict.mem, Dict.keys.
  induction d as [|[k' v] r IH]; simpl; auto.
  destruct (String.eqb k k'); auto.
Qed.

Lemma keys_set {V : Type} (k : name) (v : V) (d : Dict.t V) :
  Dict.keys (Dict.set k v d)
  = if Dict.mem k d then Dict.keys d else Dict.keys d ++ [k].
Proof.
  unfold Dict.mem, Dict.keys.
  induction d as [|[k' v'] r IH]; simpl; auto.
  destruct (String.eqb k k') eqn:E; simpl.
  - apply String.eqb_eq in E. now subst.
  - rewrite IH. now destruct (Dict.get k r).
Qed.

Lemma keys_set_same_keys {V W : Type} (k : name) (v : V) (w : W)
    (d : Dict.t V) (e : Dict.t W) :
  Dict.keys d = Dict.keys e ->
  Dict.keys (Dict.set k v d) = Dict.keys (Dict.set k w e).
Proof.
  intros H. rewrite !keys_set, !mem_existsb, H. reflexivity.
Qed.

Lemma get_arcs_shape (i : name) (c : Dict.t (Dict.t pair_list)) :
  Dict.get i (arcs_shape c) = option_map Dict.keys (Dict.get i c).
Proof.
  unfold arcs_shape.
  induction c as [|[k ck] r IH]; simpl; auto.
  destruct (String.eqb i k); auto.
Qed.

Lemma arcs_shape_set (i : name) (ci : Dict.t pair_list)
    (c : Dict.t (Dict.t pair_list)) :
  arcs_shape (Dict.set i ci c) = Dict.set i (Dict.keys ci) (arcs_shape c).
Proof.
  unfold arcs_shape.
  induction c as [|[k ck] r IH]; simpl; auto.
  destruct (String.eqb i k); simpl; [reflexivity | now rewrite IH].
Qed.

Lemma shape_mem_domains (s1 s2 : CSP) (k : name) :
  shape s1 = shape s2 -> Dict.mem k (domains s1) = Dict.mem k (domains s2).
Proof.
  unfold shape. intros E. injection E as _ K _.
  now apply mem_same_keys.
Qed.

Lemma shape_entry (s1 s2 : CSP) (i : name) :
  shape s1 = shape s2 ->
  option_map Dict.keys (Dict.get i (constraints s1))
  = option_map Dict.keys (Dict.get i (constraints s2)).
Proof.
  unfold shape. intros E. injection E as _ _ A.
  now rewrite <- !get_arcs_shape, A.
Qed.

Lemma shape_registered (s1 s2 : CSP) (i j : name) :
  shape s1 = shape s2 -> registered s1 i j = registered s2 i j.
Proof.
  intros E. pose proof (shape_entry s1 s2 i E) as H. unfold registered.
  destruct (Dict.get i (constraints s1)) as [c1|];
    destruct (Dict.get i (constraints s2)) as [c2|]; simpl in H;
    try discriminate; auto.
  injection H as K. now apply mem_same_keys.
Qed.

Lemma shape_arc_ok (s1 s2 : CSP) (i j : name) :
  shape s1 = shape s2 -> arc_ok s1 i j = arc_ok s2 i j.
Proof.
  intros E. unfold arc_ok.
  now rewrite (shape_registered s1 s2 i j E),
              !(shape_mem_domains s1 s2 _ E).
Qed.

Lemma well_formed_by_shape (s : CSP) :
  well_formed s
  = forallb (fun ik =>
               forallb (fun j => arc_ok s (fst ik) j && arc_ok s j (fst ik))
                       (snd ik))
            (arcs_shape (constraints s)).
Proof.
  unfold well_formed, arcs_shape.
  induction (constraints s) as [|[i ci] r IH]; simpl; auto.
  rewrite IH. f_equal. unfold Dict.keys.
  induction ci as [|[j l] ci' IHc]; simpl; auto. now rewrite IHc.
Qed.

Lemma forallb_pointwise {A : Type} (f g : A -> bool) (l : list A) :
  (forall x, f x = g x) -> forallb f l = forallb g l.
Proof.
  intros H. induction l as [|x r IH]; simpl; auto. now rewrite H, IH.
Qed.

Lemma shape_well_formed (s1 s2 : CSP) :
  shape s1 = shape s2 -> well_formed s1 = well_formed s2.
Proof.
  intros E. rewrite !well_formed_by_shape.
  assert (A : arcs_shape (constraints s1) = arcs_shape (constraints s2))
    by (unfold shape in E; now injection E).
  rewrite A. apply forallb_pointwise. intros ik.
  apply forallb_pointwise. intros j.
  now rewrite !(shape_arc_ok s1 s2 _ _ E).
Qed.

Lemma shape_on_grid (s1 s2 : CSP) :
  shape s1 = shape s2 -> on_grid s1 = on_grid s2.
Proof.
  intros E. unfold on_grid. apply forallb_pointwise. intros k.
  now apply shape_mem_domains.
Qed.

Lemma sim_ret : sim (ret tt) (ret tt).
Proof.
  intros s1 s2 E. exact E.
Qed.

Lemma sim_bind (m1 m2 k1 k2 : M unit) :
  sim m1 m2 -> sim k1 k2 -> sim (m1 ;;; k1) (m2 ;;; k2).
Proof.
  intros Hm Hk s1 s2 E. specialize (Hm s1 s2 E). unfold bind.
  destruct (m1 s1) as [[] s1'|e1 s1'|]; destruct (m2 s2) as [[] s2'|e2 s2'|];
    try contradiction; auto.
  now apply Hk.
Qed.

Lemma sim_for_each {A : Type} (b1 b2 : A -> M unit) (l : list A) :
  (forall x, In x l -> sim (b1 x) (b2 x)) ->
  sim (for_each b1 l) (for_each b2 l).
Proof.
  induction l as [|x r IH]; intros H; simpl.
  - apply sim_ret.
  - apply sim_bind; [apply H; now left|]. apply IH.
    intros y Hy. apply H. now right.
Qed.

Lemma sim_add_variable (n : name) (d1 d2 : list value) :
  sim (add_variable n d1) (add_variable n d2).
Proof.
  intros s1 s2 E. unfold add_variable, shape in *; simpl.
  injection E as V K A. rewrite V. f_equal; [f_equal|].
  - now apply keys_set_same_keys.
  - rewrite !arcs_shape_set. now rewrite A.
Qed.

Lemma sim_add_constraint (i j : name) (f1 f2 : value -> value -> bool) :
  sim (add_constraint_one_way i j f1) (add_constraint_one_way i j f2).
Proof.
  intros s1 s2 E.
  pose proof (shape_entry s1 s2 i E) as Hi.
  pose proof (shape_mem_domains s1 s2 i E) as Hdi.
  pose proof (shape_mem_domains s1 s2 j E) as Hdj.
  assert (Hshape : forall (l1 l2 : pair_list) (c1 c2 : Dict.t pair_list),
             Dict.keys c1 = Dict.keys c2 ->
             shape (with_constraints
                      (Dict.set i (Dict.set j l1 c1) (constraints s1)) s1)
             = shape (with_constraints
                        (Dict.set i (Dict.set j l2 c2) (constraints s2)) s2)).
  { intros l1 l2 c1 c2 K. unfold shape in *; simpl.
    injection E as V Kd A. rewrite V, Kd. f_equal.
    rewrite !arcs_shape_set, A. f_equal.
    now apply keys_set_same_keys. }
  unfold add_constraint_one_way, bind, subscript, ret, raise.
  destruct (Dict.get i (constraints s1)) as [c1|];
    destruct (Dict.get i (constraints s2)) as [c2|]; simpl in Hi;
    try discriminate; auto.
  injection Hi as K.
  pose proof (mem_same_keys c2 c1 j K) as Hj. unfold Dict.mem in Hj, Hdi, Hdj.
  destruct (Dict.get j c1) as [l1|]; destruct (Dict.get j c2) as [l2|];
    try discriminate; simpl; [now apply Hshape|].
  destruct (Dict.get i (domains s1)); destruct (Dict.get i (domains s2));
    try discriminate; simpl; auto.
  destruct (Dict.get j (domains s1)); destruct (Dict.get j (domains s2));
    try discriminate; simpl; auto.
Qed.

Lemma sim_add_all_different (vars : list name) :
  sim (add_all_different_constraint vars) (add_all_different_constraint vars).
Proof.
  unfold add_all_different_constraint. apply sim_for_each.
  intros [a b] _. simpl. destruct (String.eqb a b).
  - apply sim_ret.
  - apply sim_add_constraint.
Qed.

End Shape.

Section SudokuBuilder.

Lemma string_get_some (line : string) (n : nat) :
  n < String.length line -> exists c, String.get n line = Some c.
Proof.
  revert n. induction line as [|c line IH]; intros n H; simpl in *; [lia|].
  destruct n as [|n]; [eauto|]. apply IH. lia.
Qed.

Lemma string_get_none (line : string) (n : nat) :
  String.length line <= n -> String.get n line = None.
Proof.
  revert n. induction line as [|c line IH]; intros n H; simpl in *.
  - now destruct n.
  - destruct n as [|n]; [lia|]. apply IH. lia.
Qed.

Lemma board_ok_row (board : list string) (row : nat) :
  board_ok board = true -> In row (seq 0 9) ->
  exists line, nth_error board row = Some line /\ 9 <= String.length line.
Proof.
  unfold board_ok. rewrite forallb_forall. intros H Hin.
  specialize (H row Hin).
  destruct (nth_error board row) as [line|]; [|discriminate].
  exists line. split; auto. now apply Nat.leb_le.
Qed.

Lemma add_cell_ok (board : list string) (row col : nat) :
  board_ok board = true -> In row (seq 0 9) -> In col (seq 0 9) ->
  add_cell board row col
  = add_variable (cell row col) (cell_domain board row col).
Proof.
  intros Hok Hr Hc.
  destruct (board_ok_row board row Hok Hr) as [line [Hline Hlen]].
  apply in_seq in Hc.
  destruct (string_get_some line col) as [c Hget]; [lia|].
  unfold add_cell, cell_domain. rewrite Hline, Hget.
  now destruct (Ascii.eqb c "0"%char).
Qed.

Lemma for_each_ext_in {A : Type} (b1 b2 : A -> M unit) (l : list A) :
  (forall x, In x l -> b1 x = b2 x) -> for_each b1 l = for_each b2 l.
Proof.
  induction l as [|x r IH]; intros H; simpl; auto.
  rewrite (H x (or_introl eq_refl)), IH; auto.
  intros y Hy. apply H. now right.
Qed.

(** The first loop of the builder, for any choice of domains. *)
Lemma add_cells_run (dom : nat -> nat -> list value) :
  for_each (fun row =>
              for_each (fun col => add_variable (cell row col) (dom row col))
                       (seq 0 9))
           (seq 0 9) init
  = Return tt
      (mkCSP grid_keys
             (map (fun rc => (cell (fst rc) (snd rc), dom (fst rc) (snd rc)))
                  grid_cells)
             (map (fun k => (k, [])) grid_keys) 0 0 0).
Proof.
  vm_compute. reflexivity.
Qed.

Lemma add_cells_board (board : list string) :
  board_ok board = true ->
  for_each (fun row =>
              for_each (fun col => add_cell board row col) (seq 0 9))
           (seq 0 9) init
  = Return tt
      (mkCSP grid_keys (board_domains board)
             (map (fun k => (k, [])) grid_keys) 0 0 0).
Proof.
  intros Hok.
  rewrite (for_each_ext_in _
             (fun row =>
                for_each (fun col => add_variable (cell row col)
                                       (cell_domain board row col))
                         (seq 0 9))).
  - apply add_cells_run.
  - intros row Hr. apply for_each_ext_in. intros col Hc.
    now apply add_cell_ok.
Qed.

Lemma stored_no_constraint (l : list name) (d : Dict.t (list value))
    (i j : name) :
  stored (mkCSP l d (map (fun k => (k, [])) l) 0 0 0) i j = None.
Proof.
  unfold stored; simpl.
  induction l as [|k r IH]; simpl; auto.
  destruct (String.eqb i k); auto.
Qed.

Lemma is_variable_start (l : list name) (D : Dict.t (list value))
    (k : name) :
  Dict.keys D = l -> In k l ->
  is_variable (mkCSP l D (map (fun k => (k, @nil (name * pair_list))) l)
                     0 0 0) k = true.
Proof.
  intros HK Hin. unfold is_variable.
  assert (E : existsb (String.eqb k) l = true).
  { apply existsb_exists. exists k. split; auto. apply String.eqb_refl. }
  rewrite !mem_existsb. cbn [constraints domains]. rewrite HK.
  unfold Dict.keys. rewrite map_map. cbn [fst]. rewrite map_id.
  now rewrite E.
Qed.

Lemma sudoku_inv_start (D : Dict.t (list value)) :
  Dict.keys D = grid_keys ->
  sudoku_inv D (mkCSP grid_keys D (map (fun k => (k, [])) grid_keys) 0 0 0).
Proof.
  intros HK. split; [reflexivity|]. split; [reflexivity|]. split.
  - intros k Hk. now apply is_variable_start.
  - intros i j. left. apply stored_no_constraint.
Qed.

Lemma all_different_inv (D : Dict.t (list value)) (vars : list name)
    (s : CSP) :
  (forall v, In v vars -> In v grid_keys) ->
  sudoku_inv D s ->
  exists s', add_all_different_constraint vars s = Return tt s' /\
             sudoku_inv D s'.
Proof.
  intros Hvars [HD [HV [Hvar Hdiff]]].
  destruct (for_each_differ (get_all_possible_pairs vars vars) s)
    as [s' [Hrun [Hd [Hv [Hk Hst]]]]].
  { intros [a b] Hin. apply in_prod_iff in Hin. simpl.
    split; apply Hvar, Hvars; tauto. }
  exists s'. split; [exact Hrun|].
  split; [congruence|]. split; [congruence|]. split.
  - intros k Hin. unfold is_variable. rewrite Hk, Hd. now apply Hvar.
  - intros i j. rewrite Hst. unfold domain_of. rewrite Hd.
    fold (domain_of s i). fold (domain_of s j).
    destruct (touched _ i j); [|apply Hdiff].
    right. unfold base_pairs.
    destruct (Hdiff i j) as [E|E]; rewrite E; [reflexivity|].
    now rewrite filter_idem.
Qed.

Lemma for_each_inv {A : Type} (P : CSP -> Prop) (body : A -> M unit)
    (l : list A) :
  (forall x s, In x l -> P s -> exists s', body x s = Return tt s' /\ P s') ->
  forall s, P s -> exists s', for_each body l s = Return tt s' /\ P s'.
Proof.
  induction l as [|x r IH]; intros H s Hs; simpl.
  - exists s. split; auto.
  - destruct (H x s (or_introl eq_refl) Hs) as [s1 [Hrun1 Hs1]].
    destruct (IH (fun y s0 Hy => H y s0 (or_intror Hy)) s1 Hs1)
      as [s' [Hrun Hs']].
    exists s'. split; auto. unfold bind. now rewrite Hrun1.
Qed.

Lemma in_grid_keys (row col : nat) :
  row < 9 -> col < 9 -> In (cell row col) grid_keys.
Proof.
  intros Hr Hc. unfold grid_keys. apply in_flat_map.
  exists row. split; [apply in_seq; lia|].
  apply in_map_iff. exists col. split; auto. apply in_seq. lia.
Qed.

(** The whole builder on a board of the right size. *)
Lemma create_sudoku_csp_run (board : list string) :
  board_ok board = true ->
  exists s',
    create_sudoku_csp board init = Return tt s' /\
    sudoku_inv (board_domains board) s'.
Proof.
  intros Hok. unfold create_sudoku_csp.
  unfold bind at 1. rewrite (add_cells_board board Hok).
  set (s1 := mkCSP _ _ _ _ _ _).
  assert (H1 : sudoku_inv (board_domains board) s1).
  { apply sudoku_inv_start. vm_compute. reflexivity. }
  destruct (for_each_inv (sudoku_inv (board_domains board))
              (fun row => add_all_different_constraint
                            (map (fun col => cell row col) (seq 0 9)))
              (seq 0 9)) with (s := s1) as [s2 [Hrun2 H2]]; auto.
  { intros row s Hr Hs. apply all_different_inv; auto.
    intros v Hv. apply in_map_iff in Hv. destruct Hv as [col [<- Hc]].
    apply in_seq in Hr, Hc. apply in_grid_keys; lia. }
  unfold bind at 1. rewrite Hrun2.
  destruct (for_each_inv (sudoku_inv (board_domains board))
              (fun col => add_all_different_constraint
                            (map (fun row => cell row col) (seq 0 9)))
              (seq 0 9)) with (s := s2) as [s3 [Hrun3 H3]]; auto.
  { intros col s Hc Hs. apply all_different_inv; auto.
    intros v Hv. apply in_map_iff in Hv. destruct Hv as [row [<- Hr]].
    apply in_seq in Hr, Hc. apply in_grid_keys; lia. }
  unfold bind at 1. rewrite Hrun3.
  apply for_each_inv; auto.
  intros box_row s Hbr Hs. apply for_each_inv; auto.
  intros box_col s0 Hbc Hs0. apply all_different_inv; auto.
  intros v Hv. apply in_flat_map in Hv. destruct Hv as [row [Hr Hv]].
  apply in_map_iff in Hv. destruct Hv as [col [<- Hc]].
  apply in_seq in Hbr, Hbc, Hr, Hc. apply in_grid_keys; lia.
Qed.

Lemma sim_create_sudoku_csp (b1 b2 : list string) :
  board_ok b1 = true -> board_ok b2 = true ->
  sim (create_sudoku_csp b1) (create_sudoku_csp b2).
Proof.
  intros H1 H2. unfold create_sudoku_csp.
  apply sim_bind; [|apply sim_bind; [|apply sim_bind]].
  - apply sim_for_each. intros row Hr. apply sim_for_each. intros col Hc.
    rewrite (add_cell_ok b1 row col H1 Hr Hc),
            (add_cell_ok b2 row col H2 Hr Hc).
    apply sim_add_variable.
  - apply sim_for_each. intros row _. apply sim_add_all_different.
  - apply sim_for_each. intros col _. apply sim_add_all_different.
  - apply sim_for_each. intros br _. apply sim_for_each. intros bc _.
    apply sim_add_all_different.
Qed.

Lemma create_sudoku_csp_shape (board : list string) (s' : CSP) :
  board_ok board = true ->
  create_sudoku_csp board init = Return tt s' ->
  shape s' = shape completed_sudoku.
Proof.
  intros Hok Hrun.
  assert (Href : create_sudoku_csp completed_board init
                 = Return tt completed_sudoku) by (vm_compute; reflexivity).
  pose proof (sim_create_sudoku_csp board completed_board Hok eq_refl
                init init eq_refl) as H.
  now rewrite Hrun, Href in H.
Qed.

Lemma completed_sudoku_peers :
  forallb (fun rc =>
             forallb (fun rc' =>
                        Bool.eqb
                          (registered completed_sudoku
                             (cell (fst rc) (snd rc))
                             (cell (fst rc') (snd rc')))
                          (peer (fst rc) (snd rc) (fst rc') (snd rc')))
                     grid_cells)
          grid_cells = true.
Proof.
  vm_compute. reflexivity.
Qed.

Lemma in_grid_cells (row col : nat) :
  row < 9 -> col < 9 -> In (row, col) grid_cells.
Proof.
  intros Hr Hc. unfold grid_cells. apply in_prod; apply in_seq; lia.
Qed.

End SudokuBuilder.

Section SudokuFacts.

Lemma get_map_injective {A V : Type} (f : A -> name) (g : A -> V)
    (l : list A) (x : A) :
  In x l -> (forall y, In y l -> f y = f x -> y = x) ->
  Dict.get (f x) (map (fun y => (f y, g y)) l) = Some (g x).
Proof.
  induction l as [|y r IH]; simpl; intros Hin Hinj; [contradiction|].
  destruct (String.eqb (f x) (f y)) eqn:E.
  - apply String.eqb_eq in E. rewrite (Hinj y (or_introl eq_refl)); auto.
  - destruct Hin as [->|Hin].
    + rewrite String.eqb_refl in E. discriminate.
    + apply IH; auto.
Qed.

Lemma cell_injective_check :
  forallb (fun rc =>
             forallb (fun rc' =>
                        implb (String.eqb (cell (fst rc') (snd rc'))
                                          (cell (fst rc) (snd rc)))
                              ((fst rc' =? fst rc) && (snd rc' =? snd rc)))
                     grid_cells)
          grid_cells = true.
Proof.
  vm_compute. reflexivity.
Qed.

Lemma cell_injective (rc rc' : nat * nat) :
  In rc grid_cells -> In rc' grid_cells ->
  cell (fst rc') (snd rc') = cell (fst rc) (snd rc) -> rc' = rc.
Proof.
  intros H H' E. pose proof cell_injective_check as C.
  rewrite forallb_forall in C. specialize (C rc H).
  rewrite forallb_forall in C. specialize (C rc' H').
  rewrite E, String.eqb_refl in C. simpl in C.
  apply andb_true_iff in C. destruct C as [C1 C2].
  apply Nat.eqb_eq in C1, C2. destruct rc, rc'. simpl in *. congruence.
Qed.

Lemma board_domains_get (board : list string) (row col : nat) :
  row < 9 -> col < 9 ->
  Dict.get (cell row col) (board_domains board)
  = Some (cell_domain board row col).
Proof.
  intros Hr Hc. unfold board_domains.
  apply (get_map_injective (fun rc => cell (fst rc) (snd rc))
           (fun rc => cell_domain board (fst rc) (snd rc))
           grid_cells (row, col)).
  - now apply in_grid_cells.
  - intros y Hy E. apply (cell_injective (row, col) y); auto.
    now apply in_grid_cells.
Qed.

Lemma board_domains_keys (board : list string) :
  Dict.keys (board_domains board) = grid_keys.
Proof.
  vm_compute. reflexivity.
Qed.

Lemma peers_registered (s : CSP) (r c r' c' : nat) :
  shape s = shape completed_sudoku ->
  r < 9 -> c < 9 -> r' < 9 -> c' < 9 ->
  registered s (cell r c) (cell r' c') = peer r c r' c'.
Proof.
  intros E Hr Hc Hr' Hc'. rewrite (shape_registered _ _ _ _ E).
  pose proof completed_sudoku_peers as C.
  rewrite forallb_forall in C. specialize (C (r, c) (in_grid_cells r c Hr Hc)).
  rewrite forallb_forall in C.
  specialize (C (r', c') (in_grid_cells r' c' Hr' Hc')).
  now apply Bool.eqb_prop in C.
Qed.

Lemma forallb_false_exists {A : Type} (f : A -> bool) (l : list A) :
  forallb f l = false -> exists x, In x l /\ f x = false.
Proof.
  induction l as [|x r IH]; simpl; [discriminate|].
  destruct (f x) eqn:E; simpl.
  - intros H. destruct (IH H) as [y [Hy Hf]]. exists y. auto.
  - intros _. exists x. auto.
Qed.

Lemma add_cell_cases (board : list string) (row col : nat) (s : CSP) :
  (exists s', add_cell board row col s = Return tt s') \/
  (exists s', add_cell board row col s = Raise IndexError s').
Proof.
  unfold add_cell, raise.
  destruct (nth_error board row) as [line|]; [|right; eauto].
  destruct (String.get col line) as [c|]; [|right; eauto].
  left. destruct (Ascii.eqb c "0"%char); eexists; reflexivity.
Qed.

Lemma for_each_cases {A : Type} (body : A -> M unit) (l : list A) :
  (forall x s, (exists s', body x s = Return tt s') \/
               (exists s', body x s = Raise IndexError s')) ->
  forall s, (exists s', for_each body l s = Return tt s') \/
            (exists s', for_each body l s = Raise IndexError s').
Proof.
  intros H. induction l as [|x r IH]; intros s; simpl.
  - left. eexists. reflexivity.
  - unfold bind. destruct (H x s) as [[s1 E]|[s1 E]]; rewrite E; eauto.
Qed.

Lemma for_each_raises {A : Type} (body : A -> M unit) (l : list A) :
  (forall x s, (exists s', body x s = Return tt s') \/
               (exists s', body x s = Raise IndexError s')) ->
  (exists x, In x l /\ forall s, exists s', body x s = Raise IndexError s') ->
  forall s, exists s', for_each body l s = Raise IndexError s'.
Proof.
  intros H. induction l as [|x r IH]; intros [y [Hin Hy]] s; simpl;
    [contradiction|].
  unfold bind. destruct Hin as [<-|Hin].
  - destruct (Hy s) as [s1 E]. rewrite E. eauto.
  - destruct (H x s) as [[s1 E]|[s1 E]]; rewrite E; eauto.
Qed.

Lemma add_cells_raise (board : list string) :
  board_ok board = false ->
  exists s',
    for_each (fun row =>
                for_each (fun col => add_cell board row col) (seq 0 9))
             (seq 0 9) init
    = Raise IndexError s'.
Proof.
  intros Hbad. unfold board_ok in Hbad.
  apply forallb_false_exists in Hbad. destruct Hbad as [row [Hr Hrow]].
  apply for_each_raises.
  - intros x s. apply for_each_cases. intros col s0. apply add_cell_cases.
  - exists row. split; [exact Hr|]. intros s.
    apply for_each_raises; [intros col s0; apply add_cell_cases|].
    destruct (nth_error board row) as [line|] eqn:Hline.
    + exists 8. split; [apply in_seq; lia|]. intros s0.
      apply Nat.leb_gt in Hrow.
      unfold add_cell, raise. rewrite Hline.
      rewrite (string_get_none line 8) by lia. eauto.
    + exists 0. split; [apply in_seq; lia|]. intros s0.
      unfold add_cell, raise. rewrite Hline. eauto.
Qed.

End SudokuFacts.

(** X16 ([create_sudoku_csp], the variables): on a board with nine lines
    of at least nine characters the builder returns; the variables are
    the 81 cells ["0-0"] to ["8-8"], row by row, and the domain of a cell
    is [1 .. 9] when its character is ['0'] and that one character
    otherwise. *)
Theorem create_sudoku_csp_registers_cells (board : list string)
    (Hok : board_ok board = true) :
  exists s',
    create_sudoku_csp board init = Return tt s' /\
    variables s' = grid_keys /\
    Dict.keys (domains s') = grid_keys /\
    forall row col, row < 9 -> col < 9 ->
                    Dict.get (cell row col) (domains s')
                    = Some (cell_domain board row col).
Proof.
  destruct (create_sudoku_csp_run board Hok) as [s' [Hrun [HD [HV _]]]].
  exists s'. split; [exact Hrun|]. split; [exact HV|].
  rewrite HD. split; [apply board_domains_keys|].
  intros row col. apply board_domains_get.
Qed.

(** X16 on the board with four emptied cells. *)
Lemma create_sudoku_csp_registers_cells_witness :
  board_ok rectangle_board = true /\
  exists s',
    create_sudoku_csp rectangle_board init = Return tt s' /\
    Dict.get (cell 3 5) (domains s') = Some (map str (seq 1 9)) /\
    Dict.get (cell 0 0) (domains s') = Some ["5"].
Proof.
  split; [reflexivity|].
  destruct (create_sudoku_csp_registers_cells rectangle_board eq_refl)
    as [s' [Hrun [_ [_ Hget]]]].
  exists s'. split; [exact Hrun|]. split.
  - apply (Hget 3 5); lia.
  - apply (Hget 0 0); lia.
Defined.

(** X17 ([create_sudoku_csp], the constraints): on such a board the
    graph built respects the contract of the search (every arc in both
    directions, between added variables, on the 81 cells); the arc from
    one cell to another is registered exactly when they are different
    cells of one row, one column or one 3x3 box; and every stored
    relation is the list of pairs of different values of the two
    domains. *)
Theorem create_sudoku_csp_constraints (board : list string)
    (Hok : board_ok board = true) :
  exists s',
    create_sudoku_csp board init = Return tt s' /\
    well_formed s' = true /\
    on_grid s' = true /\
    (forall r c r' c', r < 9 -> c < 9 -> r' < 9 -> c' < 9 ->
                       registered s' (cell r c) (cell r' c')
                       = peer r c r' c') /\
    (forall i j l,
        stored s' i j = Some l ->
        l = filter differing
                   (get_all_possible_pairs (domain_of s' i)
                                           (domain_of s' j))).
Proof.
  destruct (create_sudoku_csp_run board Hok) as [s' [Hrun [_ [_ [_ Hd]]]]].
  pose proof (create_sudoku_csp_shape board s' Hok Hrun) as E.
  exists s'. split; [exact Hrun|].
  split; [rewrite (shape_well_formed _ _ E); vm_compute; reflexivity|].
  split; [rewrite (shape_on_grid _ _ E); vm_compute; reflexivity|].
  split; [intros r c r' c'; now apply peers_registered|].
  intros i j l Hl. destruct (Hd i j) as [H|H]; congruence.
Qed.

(** X17 on the board with four emptied cells. *)
Lemma create_sudoku_csp_constraints_witness :
  board_ok rectangle_board = true /\
  exists s',
    create_sudoku_csp rectangle_board init = Return tt s' /\
    well_formed s' = true /\
    registered s' (cell 3 5) (cell 3 8) = true /\
    registered s' (cell 3 5) (cell 0 0) = false.
Proof.
  split; [reflexivity|].
  destruct (create_sudoku_csp_constraints rectangle_board eq_refl)
    as [s' [Hrun [Hwf [_ [Hpeer _]]]]].
  exists s'. split; [exact Hrun|]. split; [exact Hwf|]. split.
  - apply (Hpeer 3 5 3 8); lia.
  - apply (Hpeer 3 5 0 0); lia.
Defined.

(** X18 ([create_sudoku_csp], short board): on a board with fewer than
    nine lines, or with one of the first nine lines shorter than nine
    characters, the builder raises [IndexError]. *)
Theorem create_sudoku_csp_index_error (board : list string)
    (Hbad : board_ok board = false) :
  exists s', create_sudoku_csp board init = Raise IndexError s'.
Proof.
  destruct (add_cells_raise board Hbad) as [s' Hraise].
  exists s'. unfold create_sudoku_csp. unfold bind at 1.
  now rewrite Hraise.
Qed.

(** X18 on a board of eight lines. *)
Lemma create_sudoku_csp_index_error_witness :
  board_ok (firstn 8 rectangle_board) = false /\
  exists s',
    create_sudoku_csp (firstn 8 rectangle_board) init
    = Raise IndexError s'.
Proof.
  split; [reflexivity|].
  exact (create_sudoku_csp_index_error (firstn 8 rectangle_board) eq_refl).
Defined.

(** X19 (builder and search together): for every board with nine lines
    of at least nine characters and every sequence of random draws,
    building the graph and calling the entry point terminates and raises
    nothing: the search returns [False] or an assignment of the 81
    cells. *)
Theorem sudoku_search_returns (rnd : nat -> nat) (board : list string)
    (Hok : board_ok board = true) :
  exists s r s',
    create_sudoku_csp board init = Return tt s /\
    backtracking_search rnd s = Return r s' /\
    solved_from (domains s) r.
Proof.
  destruct (create_sudoku_csp_run board Hok) as [s [Hrun _]].
  pose proof (create_sudoku_csp_shape board s Hok Hrun) as E.
  assert (Hwf : well_formed s = true)
    by (rewrite (shape_well_formed _ _ E); vm_compute; reflexivity).
  assert (Hgrid : on_grid s = true)
    by (rewrite (shape_on_grid _ _ E); vm_compute; reflexivity).
  pose proof (backtracking_search_no_raise rnd s Hwf Hgrid) as Hsafe.
  pose proof (backtracking_search_post rnd s) as Hpost.
  destruct (backtracking_search rnd s) as [r s'| |] eqn:Hs;
    try discriminate; try contradiction.
  exists s, r, s'. split; [exact Hrun|]. split; [exact Hs|].
  apply Hpost.
Qed.

(** X19 on the board with four emptied cells. *)
Lemma sudoku_search_returns_witness :
  board_ok rectangle_board = true /\
  exists s r s',
    create_sudoku_csp rectangle_board init = Return tt s /\
    backtracking_search (fun n => n) s = Return r s' /\
    solved_from (domains s) r.
Proof.
  split; [reflexivity|].
  exact (sudoku_search_returns (fun n => n) rectangle_board eq_refl).
Defined.

Section FirstValues.

Variable rnd : nat -> nat.

Lemma finished_undecided (a : Assignment) (k : name) :
  finished a = true -> undecided a k = false.
Proof.
  unfold finished. rewrite forallb_forall. intros H.
  destruct (undecided a k) eqn:E; auto.
  assert (Hin : In k (Dict.keys a)).
  { apply DictFacts.in_keys_get. unfold undecided in E.
    destruct (Dict.get k a) as [l|]; [eauto | discriminate]. }
  specialize (H k Hin). now rewrite E in H.
Qed.

Lemma all_consistent_fields (s s' : CSP) :
  constraints s' = constraints s -> domains s' = domains s ->
  all_consistent s -> all_consistent s'.
Proof.
  intros C D H p Hp. unfold get_all_arcs in Hp. rewrite C in Hp.
  specialize (H p Hp). unfold arc_consistent, has_support, stored in *.
  now rewrite C, D.
Qed.

Lemma inference_all_consistent (a : Assignment) (s : CSP) :
  all_consistent s -> inference a (get_all_arcs s) s = Return true s.
Proof.
  intros H. unfold inference. apply inference_loop_consistent; auto.
  unfold inference_fuel. lia.
Qed.

Lemma backtrack_first_values (fuel : nat) :
  forall (a : Assignment) (s : CSP),
    length (unassigned a) < fuel ->
    all_consistent s ->
    (forall k, In k grid_keys -> In k (Dict.keys a)) ->
    (forall k, In k (unassigned a) ->
               exists v d, Dict.get k (domains s) = Some (v :: d)) ->
    exists a' s',
      backtrack rnd fuel a s = Return (PyDict a') s' /\
      domains s' = domains s /\
      constraints s' = constraints s /\
      backtrack_failed s' = backtrack_failed s /\
      first_values s a a'.
Proof.
  induction fuel as [|fuel IH]; intros a s Hfuel Hcons Hgrid Hdom; [lia|].
  simpl. unfold bind at 1. unfold incr_called at 1.
  set (s0 := mkCSP _ _ _ _ _ _).
  destruct (finished a) eqn:Hfin.
  - exists a, s0. repeat split; auto.
    intros k. now rewrite (finished_undecided a k Hfin).
  - assert (Hg : forallb (fun k => Dict.mem k a) grid_keys = true).
    { apply forallb_forall. intros k Hk. apply DictFacts.mem_in_keys. auto. }
    unfold debug_print. rewrite Hg. unfold bind at 1, ret at 1.
    destruct (unfinished_has_undecided a Hfin) as [v0 Hv0].
    assert (Hne : unassigned a <> []).
    { intros E. rewrite E in Hv0. inversion Hv0. }
    destruct (random_choice_nonempty rnd (unassigned a) s0 Hne)
      as [var [Hvar Hrun]].
    unfold select_unassigned_variable, bind at 1. rewrite Hrun.
    set (s1 := mkCSP _ _ _ _ _ _).
    destruct (Hdom var Hvar) as [v [d Hd]].
    assert (Hd1 : Dict.get var (domains s1) = Some (v :: d)) by exact Hd.
    unfold bind at 1, subscript. rewrite Hd1. unfold ret at 1.
    assert (Hcons1 : all_consistent s1)
      by (apply (all_consistent_fields s s1); auto).
    change (length (v :: d)) with (S (length d)).
    cbn [for_values]. rewrite Hd1. cbn [nth_error]. unfold bind at 1.
    rewrite (inference_all_consistent _ s1 Hcons1).
    pose proof (unassigned_set_decreases a var v Hvar) as Hlt.
    assert (Hkeys : Dict.keys (Dict.set var [v] a) = Dict.keys a).
    { apply in_unassigned in Hvar. destruct Hvar as [_ [l [Hl _]]].
      eapply DictFacts.keys_set_present; eauto. }
    destruct (IH (Dict.set var [v] a) s1) as [a' [s' [Hrec [D [C [F Hf]]]]]];
      auto.
    + lia.
    + intros k Hk. rewrite Hkeys. auto.
    + intros k Hk. apply Hdom. unfold unassigned in *.
      rewrite Hkeys in Hk. apply filter_In in Hk. destruct Hk as [Hk Hu].
      apply filter_In. split; auto. rewrite undecided_set in Hu.
      now destruct (String.eqb k var).
    + unfold bind at 1. rewrite Hrec. unfold ret.
      exists a', s'. split; [reflexivity|].
      split; [exact D|]. split; [exact C|]. split; [exact F|].
      intros k. rewrite (Hf k). rewrite undecided_set.
      destruct (String.eqb k var) eqn:E.
      * apply String.eqb_eq in E. subst k.
        rewrite DictFacts.get_set_same.
        apply in_unassigned in Hvar. destruct Hvar as [_ [l [Hl Hlen]]].
        unfold undecided. rewrite Hl.
        apply Nat.ltb_lt in Hlen. rewrite Hlen.
        unfold domain_of. rewrite Hd. reflexivity.
      * apply String.eqb_neq in E.
        rewrite DictFacts.get_set_other by assumption.
        unfold domain_of. reflexivity.
Qed.

End FirstValues.

(** X20 ([backtracking_search], arc-consistent store): on a graph whose
    registered arcs are all consistent and whose variables include the 81
    cells, the entry point returns, without a single failed call and
    without touching a domain, the assignment that gives every variable
    with more than one value the first value of its registered domain;
    the constraints play no further part. *)
Theorem backtracking_search_takes_first_values (rnd : nat -> nat) (s : CSP)
    (Hcons : all_consistent s)
    (Hgrid : on_grid s = true) :
  exists a' s',
    backtracking_search rnd s = Return (PyDict a') s' /\
    domains s' = domains s /\
    backtrack_failed s' = backtrack_failed s /\
    first_values s (domains s) a'.
Proof.
  unfold backtracking_search, bind.
  rewrite (inference_all_consistent (domains s) s Hcons).
  destruct (backtrack_first_values rnd (backtrack_fuel (domains s))
              (domains s) s) as [a' [s' [Hrun [D [_ [F Hf]]]]]]; auto.
  - unfold on_grid in Hgrid. rewrite forallb_forall in Hgrid.
    intros k Hk. apply DictFacts.mem_in_keys. auto.
  - intros k Hk. apply in_unassigned in Hk.
    destruct Hk as [_ [l [Hl Hlen]]]. rewrite Hl.
    destruct l as [|v d]; [simpl in Hlen; lia | eauto].
  - exists a', s'. auto.
Qed.

(** X20 on the grid whose first two cells must differ: both get [1]. *)
Lemma backtracking_search_takes_first_values_witness :
  all_consistent twin_grid /\
  on_grid twin_grid = true /\
  registered twin_grid "0-0" "0-1" = true /\
  exists a' s',
    backtracking_search (fun n => n) twin_grid = Return (PyDict a') s' /\
    Dict.get "0-0" a' = Some ["1"] /\
    Dict.get "0-1" a' = Some ["1"].
Proof.
  assert (Hcons : all_consistent twin_grid).
  { intros p Hp. vm_compute in Hp.
    destruct Hp as [<-|[<-|[]]]; vm_compute; reflexivity. }
  assert (Hgrid : on_grid twin_grid = true) by (vm_compute; reflexivity).
  split; [exact Hcons|]. split; [exact Hgrid|].
  split; [vm_compute; reflexivity|].
  destruct (backtracking_search_takes_first_values (fun n => n) twin_grid
              Hcons Hgrid) as [a' [s' [Hrun [_ [_ Hf]]]]].
  exists a', s'. split; [exact Hrun|]. split.
  - rewrite (Hf "0-0"). vm_compute. reflexivity.
  - rewrite (Hf "0-1"). vm_compute. reflexivity.
Defined.
